(** * bpprof: the heap report generator

    A shallow embedding of [bpprof.go] (package [bpprof]): [formatSize],
    the four [sort.Interface] comparators, [printStackRecord] and the parts
    of [Heap] that aggregate, order and total the memory-profile records and
    that reorder the garbage-collection pause history.

    Conventions.
    - [int64] values are integers of [Z] kept in the signed 64-bit range by
      [int64]; every Go [+] and [-] on them is followed by that wrap.
    - [uintptr] values are integers of [Z] kept in [0, 2^ptrBits) by
      [uintptr]; [ptrBits] is 64 on amd64 and arm64, 32 on 386 and arm.
    - [float64] values are the IEEE 754 binary64 numbers of the standard
      library's [SpecFloat] (precision 53, maximal exponent 1024).
    - What the Go runtime and standard library provide ([runtime.FuncForPC],
      [sort.Sort], the iteration order of a map) is a section variable,
      with its documented contract as a section hypothesis where a proof
      needs one. *)

From Stdlib Require Import ZArith String Ascii List Lia Permutation Sorted.
From Stdlib Require Import SpecFloat DecimalString HexadecimalString.
From stdpp Require Import gmap strings list sorting.

Local Open Scope Z_scope.

(** ** Machine integers *)

Module Int.

(** Two's complement reduction to the signed 64-bit range: the value an
    [int64] holds after an operation whose exact result is [x]. *)
Definition int64 (x : Z) : Z := (x + 2 ^ 63) mod 2 ^ 64 - 2 ^ 63.

Definition add64 (a b : Z) : Z := int64 (a + b).
Definition sub64 (a b : Z) : Z := int64 (a - b).

(** Reduction to an unsigned word of [bits] bits ([uintptr], [uint32]). *)
Definition uwrap (bits x : Z) : Z := x mod 2 ^ bits.

Definition in_int64 (x : Z) : Prop := - 2 ^ 63 <= x < 2 ^ 63.

(** Two's complement reduction to a signed word of [bits] bits ([int]). *)
Definition swrap (bits x : Z) : Z :=
  (x + 2 ^ (bits - 1)) mod 2 ^ bits - 2 ^ (bits - 1).

End Int.

Export Int.

(** ** Printing verbs of [fmt] *)

Module Fmt.

(** [%d] of an integer. *)
Definition verb_d (z : Z) : string :=
  DecimalString.NilZero.string_of_int (Z.to_int z).

(** [%#x] of an unsigned integer: [0x] and lower-case hexadecimal digits. *)
Definition verb_sharp_x (z : Z) : string :=
  "0x" +:+ HexadecimalString.NilZero.string_of_uint (N.to_hex_uint (Z.to_N z)).

Fixpoint zeros (n : nat) : string :=
  match n with O => "" | S k => "0" +:+ zeros k end.

(** The decimal digits of [z >= 0], padded on the left to [n] digits. *)
Definition pad_digits (n : nat) (z : Z) : string :=
  let s := verb_d z in zeros (n - String.length s)%nat +:+ s.

(** [q] is [num / den] rounded to the nearest integer, ties to even; this
    is the rounding [strconv] applies to the exact decimal expansion. *)
Definition round_half_even (num den : Z) : Z :=
  let q := num / den in
  let r := num mod den in
  match 2 * r ?= den with
  | Lt => q
  | Gt => q + 1
  | Eq => if Z.even q then q else q + 1
  end.

Definition sign_string (s : bool) : string := if s then "-" else "".

(** The digits of [n / 10^prec] with [prec] digits after the point. *)
Definition fixed (prec : nat) (n : Z) : string :=
  let p := 10 ^ Z.of_nat prec in
  verb_d (n / p) +:+
  match prec with O => "" | _ => "." +:+ pad_digits prec (n mod p) end.

(** [%.<prec>f] of a binary64 number: the exact value [m * 2^e] is
    rounded to [prec] decimal places, ties to even. *)
Definition verb_f (prec : nat) (x : spec_float) : string :=
  match x with
  | S754_nan => "NaN"
  | S754_infinity s => if s then "-Inf" else "+Inf"
  | S754_zero s => sign_string s +:+ fixed prec 0
  | S754_finite s m e =>
      let p := 10 ^ Z.of_nat prec in
      let n := if (0 <=? e) then Z.pos m * 2 ^ e * p
               else round_half_even (Z.pos m * p) (2 ^ (- e)) in
      sign_string s +:+ fixed prec n
  end.

End Fmt.

(** ** [formatSize] *)

Module Float64.

Definition prec : Z := 53.
Definition emax : Z := 1024.

(** The conversion [float64(n)] of an integer, rounding to nearest even. *)
Definition of_int (n : Z) : spec_float := binary_normalize prec emax n 0 false.

Definition div : spec_float -> spec_float -> spec_float := SFdiv prec emax.
Definition ltb : spec_float -> spec_float -> bool := SFltb.

End Float64.

Definition units : list string := ["B"; "KB"; "MB"; "GB"; "TB"].

(** The loop of [formatSize] over the units still to try: [us] is
    [units[i:]] and [s] the running value. *)
Fixpoint formatSize_loop (us : list string) (s : spec_float) : string :=
  match us with
  | [] => Fmt.verb_f 0 s +:+ "TB"
  | u :: rest =>
      if Float64.ltb s (Float64.of_int 1000) then Fmt.verb_f 2 s +:+ u
      else formatSize_loop rest (Float64.div s (Float64.of_int 1024))
  end.

Definition formatSize (size : Z) : string :=
  formatSize_loop units (Float64.of_int size).

(** A rendered size has no decimal places: no point occurs in it. *)
Fixpoint no_decimal_point (s : string) : bool :=
  match s with
  | EmptyString => true
  | String c rest => negb (Ascii.eqb c ".") && no_decimal_point rest
  end.

(** The renderings of the sizes from 1000 to 1023. *)
Definition just_below_KB (size : Z) : string :=
  if size <=? 1008 then "0.98KB" else if size <=? 1018 then "0.99KB" else "1.00KB".

(** The sign of a binary64 number is set, and it is a number. *)
Definition negative_float (x : spec_float) : Prop :=
  match x with
  | S754_zero true | S754_infinity true | S754_finite true _ _ => True
  | _ => False
  end.

(** ** Data of the Go runtime *)

Definition nl : string := String (ascii_of_nat 10) EmptyString.
Definition tab : string := String (ascii_of_nat 9) EmptyString.

(** [runtime.MemProfileRecord]: four [int64] counters and the
    [[32]uintptr] array [Stack0], whose unused slots are zero. *)
Record MemProfileRecord := mkRecord {
  AllocBytes : Z;
  FreeBytes : Z;
  AllocObjects : Z;
  FreeObjects : Z;
  Stack0 : list Z
}.

Global Instance MemProfileRecord_eq_dec : EqDecision MemProfileRecord.
Proof. solve_decision. Defined.

(** The methods the runtime gives a record. *)
Definition InUseBytes (r : MemProfileRecord) : Z :=
  sub64 (AllocBytes r) (FreeBytes r).

Definition InUseObjects (r : MemProfileRecord) : Z :=
  sub64 (AllocObjects r) (FreeObjects r).

(** [r.Stack()]: the slots of [Stack0] before the first zero. *)
Fixpoint stack_prefix (slots : list Z) : list Z :=
  match slots with
  | [] => []
  | v :: rest => if v =? 0 then [] else v :: stack_prefix rest
  end.

Definition Stack (r : MemProfileRecord) : list Z := stack_prefix (Stack0 r).

(** [*runtime.Func]: what the code reads of a resolved function. *)
Record Func := mkFunc {
  Entry : Z;
  Name : string;
  FileLine : Z -> string * Z
}.

(** ** The comparators of the four [sort.Interface] types

    [Less a b] is [Less(i, j)] with [a = x[i]] and [b = x[j]]. *)

Definition byInUseBytes_Less (a b : MemProfileRecord) : bool :=
  InUseBytes a >? InUseBytes b.

Definition byAllocBytes_Less (a b : MemProfileRecord) : bool :=
  AllocBytes a >? AllocBytes b.

Definition byAllocObjects_Less (a b : MemProfileRecord) : bool :=
  AllocObjects a >? AllocObjects b.

Definition byInUseObjects_Less (a b : MemProfileRecord) : bool :=
  InUseObjects a >? InUseObjects b.

(** The [switch] of [Heap] on the [sort] form value. *)
Definition lessFor (sortKey : string) : MemProfileRecord -> MemProfileRecord -> bool :=
  if String.eqb sortKey "allocbytes" then byAllocBytes_Less
  else if String.eqb sortKey "allocobjects" then byAllocObjects_Less
  else if String.eqb sortKey "inuseobjects" then byInUseObjects_Less
  else byInUseBytes_Less.

(** What [sort.Sort] asks of [Less]: a strict weak ordering. *)
Record StrictWeak {A} (less : A -> A -> bool) : Prop := {
  sw_irrefl : forall a, less a a = false;
  sw_trans : forall a b c, less a b = true -> less b c = true -> less a c = true;
  sw_incomp : forall a b c, less a b = false -> less b c = false -> less a c = false
}.

(** ** Output events of [printStackRecord] *)

(** The calls a stack rendering makes that a reader can observe: the
    [FileLine] lookups, with the address passed, and the writes to [w]. *)
Inductive event :=
  | EvFileLine (f : Func) (tracepc : Z)
  | EvWrite (s : string).

Definition written (e : event) : option string :=
  match e with EvWrite s => Some s | EvFileLine _ _ => None end.

Definition looked_up (e : event) : option Z :=
  match e with EvFileLine _ a => Some a | EvWrite _ => None end.

Definition writes (evs : list event) : list string := omap written evs.
Definition lookups (evs : list event) : list Z := omap looked_up evs.

Definition nonempty {A} (l : list A) : bool :=
  match l with [] => false | _ => true end.

(** The loop variables [show] and [wasPanic]. *)
Record frameState := mkState { show : bool; wasPanic : bool }.

(** [for i := hi; i > lo; i-- { body }] on an unsigned [i]: the body runs at
    [hi], [hi - 1], ..., [lo + 1]; [n] counts the iterations left, [hi] being
    [lo + n]. *)
Fixpoint countdown {St} (body : nat -> St -> St) (lo n : nat) (s : St) : St :=
  match n with
  | O => s
  | S m => countdown body lo m (body (lo + S m)%nat s)
  end.

(** The accumulators [pauseNs] and [pauseNsLongest]. *)
Record pauseAcc := mkPause { pauseNs : list Z; pauseNsLongest : Z }.

(** One iteration of either pause loop; [PauseNs] holds [uint64] values and
    [time.Duration] is an [int64]. *)
Definition pause_body (PauseNs : list Z) (i : nat) (acc : pauseAcc) : pauseAcc :=
  let d := int64 (nth i PauseNs 0) in
  {| pauseNs := pauseNs acc ++ [d];
     pauseNsLongest := if d >? pauseNsLongest acc then d else pauseNsLongest acc |}.

(** The two loops of [Heap] over [s.PauseNs], from [s.NumGC] (a [uint32]). *)
Definition pause_history (NumGC : Z) (PauseNs : list Z) : pauseAcc :=
  let k := Z.to_nat (uwrap 32 (NumGC + 255) mod 256) in
  let acc := countdown (pause_body PauseNs) 0 k (mkPause [] 0) in
  countdown (pause_body PauseNs) k (255 - k) acc.

(** The index of the newest pause, as [Heap] computes it. *)
Definition newest_slot (NumGC : Z) : nat := Z.to_nat (uwrap 32 (NumGC + 255) mod 256).

(** [pauseNsLongest] is the longest pause of [pauseNs], or zero. *)
Definition longest_of (acc : pauseAcc) : Prop :=
  Forall (fun d => d <= pauseNsLongest acc) (pauseNs acc) /\
  (pauseNsLongest acc = 0 \/ pauseNsLongest acc ∈ pauseNs acc).

(** ** The specification's wording, for comparison with the code *)

(** The aggregation key as the specification words it, on words of [bits]
    bits: from [h = 0], each address [pc] in order gives [h := h + pc],
    [h := h + (h << 10)], [h := h xor (h >> 6)]; then [h := h + (h << 3)],
    [h := h xor (h >> 11)]. *)
Fixpoint spec_fold (bits h : Z) (addresses : list Z) : Z :=
  match addresses with
  | [] => h
  | pc :: rest =>
      let h := (h + pc) mod 2 ^ bits in
      let h := (h + h * 2 ^ 10) mod 2 ^ bits in
      let h := Z.lxor h (h / 2 ^ 6) in
      spec_fold bits h rest
  end.

Definition spec_key (bits : Z) (addresses : list Z) : Z :=
  let h := spec_fold bits 0 addresses in
  let h := (h + h * 2 ^ 3) mod 2 ^ bits in
  Z.lxor h (h / 2 ^ 11).

(** The exact sum of a list of integers, and the sum as an [int64]
    accumulator computes it. *)
Definition Zsum (l : list Z) : Z := foldr Z.add 0 l.
Definition sum64 (l : list Z) : Z := fold_left add64 l 0.

(** A list is in non-increasing order of the metric [f]. *)
Definition non_increasing (f : MemProfileRecord -> Z) (l : list MemProfileRecord) : Prop :=
  forall i j a b, (i < j)%nat -> l !! i = Some a -> l !! j = Some b -> f b <= f a.

(** ** A sample runtime, for evaluating the model *)

Module Sample.

Definition goexit : Func := mkFunc 100 "runtime.goexit" (fun a => ("proc.go", a)).
Definition mallocgc : Func := mkFunc 200 "runtime.mallocgc" (fun a => ("malloc.go", a)).
Definition gopanic : Func := mkFunc 300 "runtime.panic" (fun a => ("panic.go", a)).
Definition alloc : Func := mkFunc 400 "main.alloc" (fun a => ("main.go", a)).

(** Four functions of 100 bytes each, from address 100 on. *)
Definition FuncForPC (pc : Z) : option Func :=
  if (100 <=? pc) && (pc <? 200) then Some goexit
  else if (200 <=? pc) && (pc <? 300) then Some mallocgc
  else if (300 <=? pc) && (pc <? 400) then Some gopanic
  else if (400 <=? pc) && (pc <? 500) then Some alloc
  else None.

(** A map visited in the order in which [map_to_list] lists its entries. *)
Definition map_range (m : gmap Z MemProfileRecord) : list (Z * MemProfileRecord) :=
  map_to_list m.

(** The same entries visited in the opposite order: [range] promises no
    order, and two loops over one map may differ. *)
Definition map_range_reversed (m : gmap Z MemProfileRecord)
  : list (Z * MemProfileRecord) :=
  reverse (map_to_list m).

(** A sort that meets the contract of [sort.Sort]. *)
Definition sort_Sort (less : MemProfileRecord -> MemProfileRecord -> bool)
  : list MemProfileRecord -> list MemProfileRecord :=
  merge_sort (fun a b => negb (less b a)).

Definition slots (stack : list Z) : list Z :=
  stack ++ replicate (32 - length stack) 0.

(** Two records of one stack, and a record of another stack with the same
    64-bit key. *)
Definition r1 : MemProfileRecord := mkRecord 10 1 2 1 (slots [1; 1041]).
Definition r2 : MemProfileRecord := mkRecord 30 4 5 2 (slots [1; 1041]).
Definition r3 : MemProfileRecord := mkRecord 100 50 7 3 (slots [2]).
Definition r4 : MemProfileRecord := mkRecord 1000 50 9 3 (slots [410; 205]).

End Sample.

Section Model.

Set Default Proof Using "Type".

(** The platform: the width of [uintptr] and [int], and [runtime.GOARCH]. *)
Variable ptrBits : Z.
Variable GOARCH : string.

(** [runtime.FuncForPC]; [None] is Go's [nil]. *)
Variable FuncForPC : Z -> option Func.

(** [runtime.MemProfileRate]. *)
Variable MemProfileRate : Z.

(** The order in which [range] visits a map: some order of its entries. *)
Variable map_range : gmap Z MemProfileRecord -> list (Z * MemProfileRecord).

(** [sort.Sort], given the [Less] of the interface value it is passed. *)
Variable sort_Sort :
  (MemProfileRecord -> MemProfileRecord -> bool) ->
  list MemProfileRecord -> list MemProfileRecord.

Definition uintptr (x : Z) : Z := uwrap ptrBits x.

(** *** [printStackRecord] *)

Definition is_x86 : bool := String.eqb GOARCH "386" || String.eqb GOARCH "amd64".

(** Lines 70 to 78: the address handed to [f.FileLine]. *)
Definition tracepc_of (i : nat) (pc : Z) (f : Func) (panicked : bool) : Z :=
  if (0 <? i)%nat && (pc >? Entry f) && negb panicked
  then if is_x86 then uintptr (pc - 1) else uintptr (pc - 4)
  else pc.

Definition hex_line (pc : Z) : string :=
  "#" +:+ tab +:+ Fmt.verb_sharp_x pc +:+ nl.

Definition frame_line (pc : Z) (f : Func) (file : string) (line : Z) : string :=
  "#" +:+ tab +:+ Fmt.verb_sharp_x pc +:+ tab +:+ Name f +:+ "+" +:+
  Fmt.verb_sharp_x (uintptr (pc - Entry f)) +:+ tab +:+ file +:+ ":" +:+
  Fmt.verb_d line +:+ nl.

(** The body of the loop over [stk], at index [i] and address [pc]. *)
Definition frame (st : frameState) (i : nat) (pc : Z) : frameState * list event :=
  match FuncForPC pc with
  | None => (mkState true false, [EvWrite (hex_line pc)])
  | Some f =>
      let tracepc := tracepc_of i pc f (wasPanic st) in
      let '(file, line) := FileLine f tracepc in
      let name := Name f in
      let panicked := String.eqb name "runtime.panic" in
      if String.eqb name "runtime.goexit" || negb (show st) && String.prefix "runtime." name
      then (mkState (show st) panicked, [EvFileLine f tracepc])
      else (mkState true panicked,
            [EvFileLine f tracepc; EvWrite (frame_line pc f file line)])
  end.

(** The loop [for i, pc := range stk], from index [i] on. *)
Fixpoint frames (st : frameState) (i : nat) (stk : list Z) : frameState * list event :=
  match stk with
  | [] => (st, [])
  | pc :: rest =>
      let '(st1, evs1) := frame st i pc in
      let '(st2, evs2) := frames st1 (S i) rest in
      (st2, evs1 ++ evs2)
  end.

(** One pass over the stack: the loop from its initial state. *)
Definition pass (allFrames : bool) (stk : list Z) : frameState * list event :=
  frames (mkState allFrames false) 0 stk.

(** [printStackRecord]; [depth] bounds the nesting of its calls, and [None]
    says that the bound was reached. *)
Fixpoint printStackRecord (depth : nat) (stk : list Z) (allFrames : bool)
  : option (list event) :=
  match depth with
  | O => None
  | S depth' =>
      let '(st, evs) := pass allFrames stk in
      if negb (show st)
      then match printStackRecord depth' stk true with
           | Some again => Some (evs ++ again)
           | None => None
           end
      else Some (evs ++ [EvWrite nl])
  end.

(** *** [Heap]: aggregation *)

(** The inner loop over [r.Stack0], lines 123 to 125. *)
Definition hash_step (h pc : Z) : Z :=
  let h := uintptr (h + pc) in
  let h := uintptr (h + uintptr (Z.shiftl h 10)) in
  Z.lxor h (Z.shiftr h 6).

(** Lines 121 to 128: the key of a record, from the slots of [Stack0]. *)
Definition stack_key (slots : list Z) : Z :=
  let h := fold_left hash_step slots 0 in
  let h := uintptr (h + uintptr (Z.shiftl h 3)) in
  Z.lxor h (Z.shiftr h 11).

Definition key_of (r : MemProfileRecord) : Z := stack_key (Stack0 r).

(** Lines 131 to 134: [r] with the counters of the stored record added. *)
Definition add_counts (r old : MemProfileRecord) : MemProfileRecord :=
  {| AllocBytes := add64 (AllocBytes r) (AllocBytes old);
     FreeBytes := add64 (FreeBytes r) (FreeBytes old);
     AllocObjects := add64 (AllocObjects r) (AllocObjects old);
     FreeObjects := add64 (FreeObjects r) (FreeObjects old);
     Stack0 := Stack0 r |}.

(** The body of the loop over [p], lines 119 to 137. *)
Definition merge_record (pm : gmap Z MemProfileRecord) (r : MemProfileRecord)
  : gmap Z MemProfileRecord :=
  let h := stack_key (Stack0 r) in
  let r := match pm !! h with
           | Some old => add_counts r old
           | None => r
           end in
  <[h := r]> pm.

Definition merge_records (p : list MemProfileRecord) : gmap Z MemProfileRecord :=
  fold_left merge_record p ∅.

(** Lines 139 to 154: the records of the map, in the order of [range], then
    sorted with the comparator the [sort] value selects. *)
Definition heap_records (sortKey : string) (p : list MemProfileRecord)
  : list MemProfileRecord :=
  sort_Sort (lessFor sortKey) (map_range (merge_records p)).*2.

(** *** [Heap]: totals and text *)

Definition zero_record : MemProfileRecord := mkRecord 0 0 0 0 (replicate 32 0).

(** Lines 159 to 164. *)
Definition add_total (total r : MemProfileRecord) : MemProfileRecord :=
  {| AllocBytes := add64 (AllocBytes total) (AllocBytes r);
     FreeBytes := add64 (FreeBytes total) (FreeBytes r);
     AllocObjects := add64 (AllocObjects total) (AllocObjects r);
     FreeObjects := add64 (FreeObjects total) (FreeObjects r);
     Stack0 := Stack0 total |}.

Definition heap_total (p : list MemProfileRecord) : MemProfileRecord :=
  fold_left add_total p zero_record.

(** The four figures [%d: <bytes> [%d: <bytes>]] that every line of counts
    prints; [bytes] renders the two byte counts. *)
Definition figures (bytes : Z -> string) (inuseObjects inuseBytes allocObjects allocBytes : Z)
  : string :=
  Fmt.verb_d inuseObjects +:+ ": " +:+ bytes inuseBytes +:+ " [" +:+
  Fmt.verb_d allocObjects +:+ ": " +:+ bytes allocBytes +:+ "]".

Definition counts (bytes : Z -> string) (r : MemProfileRecord) : string :=
  figures bytes (InUseObjects r) (InUseBytes r) (AllocObjects r) (AllocBytes r).

Definition rate_suffix : string :=
  " @ heap/" +:+ Fmt.verb_d (swrap ptrBits (2 * MemProfileRate)) +:+ nl.

(** Lines 169 to 172. *)
Definition header_line (total : MemProfileRecord) : string :=
  "heap profile: " +:+ counts Fmt.verb_d total +:+ rate_suffix.

(** Lines 174 to 177. *)
Definition header_comment (total : MemProfileRecord) : string :=
  "# heap profile: " +:+ counts formatSize total +:+ rate_suffix +:+ nl.

(** Lines 180 to 189: what [Heap] writes for one record. *)
Definition render_record (depth : nat) (r : MemProfileRecord) : option (list string) :=
  match printStackRecord depth (Stack r) false with
  | None => None
  | Some evs =>
      Some ([counts Fmt.verb_d r +:+ " @"]
            ++ map (fun pc => " " +:+ Fmt.verb_sharp_x pc) (Stack r)
            ++ [nl +:+ "# " +:+ counts formatSize r +:+ nl]
            ++ writes evs)
  end.

Fixpoint render_records (depth : nat) (p : list MemProfileRecord) : option (list string) :=
  match p with
  | [] => Some []
  | r :: rest =>
      match render_record depth r, render_records depth rest with
      | Some a, Some b => Some (a ++ b)
      | _, _ => None
      end
  end.

(** [Heap] up to the memory statistics: the strings written to the tab
    writer, for the records [p0] that [runtime.MemProfile] returned. *)
Definition Heap (depth : nat) (sortKey : string) (p0 : list MemProfileRecord)
  : option (list string) :=
  let p := heap_records sortKey p0 in
  let total := heap_total p in
  match render_records depth p with
  | None => None
  | Some body => Some (header_line total :: header_comment total :: body)
  end.

(** What the loop over [p] does to the entry of one key: the record
    arriving takes the counters of the record stored, if any, and is stored
    in its place. *)
Definition absorb (stored : option MemProfileRecord) (r : MemProfileRecord)
  : option MemProfileRecord :=
  Some (match stored with Some old => add_counts r old | None => r end).

(** The record of the stack of [first] with the counters of [first] and
    [second] added up. *)
Definition merged (first second : MemProfileRecord) : MemProfileRecord :=
  {| AllocBytes := add64 (AllocBytes second) (AllocBytes first);
     FreeBytes := add64 (FreeBytes second) (FreeBytes first);
     AllocObjects := add64 (AllocObjects second) (AllocObjects first);
     FreeObjects := add64 (FreeObjects second) (FreeObjects first);
     Stack0 := Stack0 first |}.

(** *** Notions the claims on [printStackRecord] are worded with *)

(** The frame before this one is the panic entry: [prior] holds the
    addresses that precede the frame in the stack. *)
Definition follows_panic (prior : list Z) : bool :=
  match last prior with
  | Some q =>
      match FuncForPC q with
      | Some g => String.eqb (Name g) "runtime.panic"
      | None => false
      end
  | None => false
  end.

(** The address resolves to a function of the runtime. *)
Definition internal_frame (pc : Z) : Prop :=
  exists f, FuncForPC pc = Some f /\ String.prefix "runtime." (Name f) = true.

(** The address resolves to [runtime.goexit]. *)
Definition goexit_frame (pc : Z) : Prop :=
  exists f, FuncForPC pc = Some f /\ Name f = "runtime.goexit".

(** *** Notions the further facts on [Heap] are worded with *)

(** The records stored in the map. *)
Definition stored_records (pm : gmap Z MemProfileRecord) : list MemProfileRecord :=
  (map_to_list pm).*2.

(** A counter: a field that [add_counts] adds up. *)
Definition counter (f : MemProfileRecord -> Z) : Prop :=
  forall r old, f (add_counts r old) = add64 (f r) (f old).

(** The four counters of a record are [int64] values. *)
Definition int64_record (r : MemProfileRecord) : Prop :=
  in_int64 (AllocBytes r) /\ in_int64 (FreeBytes r) /\
  in_int64 (AllocObjects r) /\ in_int64 (FreeObjects r).

(** The record [last] with, as counters, the [int64] sums of the counters
    of the records of [p]. *)
Definition summed (p : list MemProfileRecord) (last : MemProfileRecord)
  : MemProfileRecord :=
  {| AllocBytes := sum64 (map AllocBytes p);
     FreeBytes := sum64 (map FreeBytes p);
     AllocObjects := sum64 (map AllocObjects p);
     FreeObjects := sum64 (map FreeObjects p);
     Stack0 := Stack0 last |}.


(** ** Facts on machine integers *)

Lemma int64_range x : in_int64 (int64 x).
Proof.
  unfold in_int64, int64.
  pose proof (Z.mod_pos_bound (x + 2 ^ 63) (2 ^ 64) ltac:(lia)). lia.
Qed.

Lemma int64_id x : in_int64 x -> int64 x = x.
Proof.
  unfold in_int64, int64. intros H.
  rewrite Z.mod_small by lia. lia.
Qed.

(** [int64] is a congruence modulo 2^64, so wraps inside a sum or a
    difference can be dropped. *)
Lemma int64_eqm x y : (x - y) mod 2 ^ 64 = 0 -> int64 x = int64 y.
Proof.
  intros H. unfold int64. f_equal.
  apply Z.mod_divide in H; [|lia]. destruct H as [k Hk].
  replace (x + 2 ^ 63) with (y + 2 ^ 63 + k * 2 ^ 64) by lia.
  apply Z.mod_add. lia.
Qed.

Lemma int64_mod x : (int64 x - x) mod 2 ^ 64 = 0.
Proof.
  unfold int64.
  rewrite (Z.mod_eq (x + 2 ^ 63) (2 ^ 64)) by lia.
  replace (_ - _ - _ - _) with ((- ((x + 2 ^ 63) / 2 ^ 64)) * 2 ^ 64) by lia.
  apply Z.mod_mul. lia.
Qed.

Lemma int64_add_l x y : int64 (int64 x + y) = int64 (x + y).
Proof.
  apply int64_eqm. replace (int64 x + y - (x + y)) with (int64 x - x) by lia.
  apply int64_mod.
Qed.






Lemma fold_add64 l a : int64 (fold_left add64 l a) = int64 (a + Zsum l).
Proof.
  revert a. induction l as [|x l IH]; intros a; cbn [fold_left Zsum foldr].
  - f_equal. lia.
  - rewrite IH. unfold add64. rewrite int64_add_l. fold (Zsum l). f_equal. lia.
Qed.

Lemma fold_add64_range l a : in_int64 a -> in_int64 (fold_left add64 l a).
Proof.
  revert a. induction l as [|x l IH]; intros a Ha; [done|].
  apply IH, int64_range.
Qed.

Lemma sum64_Zsum l : sum64 l = int64 (Zsum l).
Proof.
  unfold sum64. rewrite <- (int64_id (fold_left add64 l 0)).
  - apply fold_add64.
  - apply fold_add64_range. unfold in_int64. lia.
Qed.

(** ** Facts on [printStackRecord] *)

Lemma writes_app a b : writes (a ++ b) = writes a ++ writes b.
Proof. apply omap_app. Qed.

Lemma lookups_app a b : lookups (a ++ b) = lookups a ++ lookups b.
Proof. apply omap_app. Qed.

(** The loop over a concatenation runs the second part from the state the
    first part leaves. *)
Lemma frames_app st i l1 l2 :
  frames st i (l1 ++ l2) =
  (fst (frames (fst (frames st i l1)) (i + length l1) l2),
   snd (frames st i l1) ++ snd (frames (fst (frames st i l1)) (i + length l1) l2)).
Proof.
  revert st i. induction l1 as [|pc l1 IH]; intros st i; cbn [frames app length].
  - rewrite Nat.add_0_r. cbn [fst snd app]. by destruct (frames st i l2).
  - destruct (frame st i pc) as [st1 evs1] eqn:E1.
    rewrite IH. replace (S i + length l1)%nat with (i + S (length l1))%nat by lia.
    destruct (frames st1 (S i) l1) as [st2 evs2]. cbn [fst snd].
    destruct (frames st2 _ l2) as [st3 evs3]. cbn [fst snd].
    by rewrite app_assoc.
Qed.

Lemma frames_snoc st i l pc :
  frames st i (l ++ [pc]) =
  (fst (frame (fst (frames st i l)) (i + length l) pc),
   snd (frames st i l) ++ snd (frame (fst (frames st i l)) (i + length l) pc)).
Proof.
  rewrite frames_app. cbn [frames].
  destruct (frame _ _ pc) as [st1 evs1]. cbn [fst snd]. by rewrite app_nil_r.
Qed.

(** What one frame does, case by case. *)
Lemma frame_unresolved st i pc :
  FuncForPC pc = None ->
  frame st i pc = (mkState true false, [EvWrite (hex_line pc)]).
Proof. intros H. unfold frame. by rewrite H. Qed.

Lemma frame_resolved st i pc f :
  FuncForPC pc = Some f ->
  let addr := tracepc_of i pc f (wasPanic st) in
  let hidden := String.eqb (Name f) "runtime.goexit"
                || negb (show st) && String.prefix "runtime." (Name f) in
  frame st i pc =
  (mkState (if hidden then show st else true) (String.eqb (Name f) "runtime.panic"),
   EvFileLine f addr ::
   if hidden then []
   else [EvWrite (frame_line pc f (fst (FileLine f addr)) (snd (FileLine f addr)))]).
Proof.
  intros H. cbv zeta. unfold frame. rewrite H.
  destruct (FileLine f _) as [file line]. cbn [fst snd].
  by destruct (_ || _).
Qed.

Lemma goexit_is_internal name :
  String.eqb name "runtime.goexit" = true -> String.prefix "runtime." name = true.
Proof. intros H. apply String.eqb_eq in H. by subst. Qed.

(** [show] ends up set exactly when it was set before or a line was written. *)
Lemma frame_show st i pc :
  show (fst (frame st i pc)) = show st || nonempty (writes (snd (frame st i pc))).
Proof.
  destruct (FuncForPC pc) as [f|] eqn:E.
  - rewrite (frame_resolved _ _ _ _ E). cbn [fst snd show].
    destruct (_ || _); cbn; destruct (show st); done.
  - rewrite (frame_unresolved _ _ _ E). cbn. by destruct (show st).
Qed.

Lemma frames_show st i stk :
  show (fst (frames st i stk)) = show st || nonempty (writes (snd (frames st i stk))).
Proof.
  revert st i. induction stk as [|pc stk IH]; intros st i; cbn [frames].
  - cbn. by destruct (show st).
  - pose proof (frame_show st i pc) as Hf.
    destruct (frame st i pc) as [st1 evs1]. cbn [fst snd] in Hf.
    specialize (IH st1 (S i)).
    destruct (frames st1 (S i) stk) as [st2 evs2]. cbn [fst snd] in *.
    rewrite IH, Hf, writes_app.
    destruct (show st), (writes evs1), (writes evs2); done.
Qed.

Lemma pass_true_show stk : show (fst (pass true stk)) = true.
Proof. unfold pass. by rewrite frames_show. Qed.

Lemma pass_false_show stk :
  show (fst (pass false stk)) = nonempty (writes (snd (pass false stk))).
Proof. unfold pass. by rewrite frames_show. Qed.

(** The unfolding of [printStackRecord] at every depth that suffices. *)
Lemma printStackRecord_all depth stk :
  printStackRecord (S depth) stk true = Some (snd (pass true stk) ++ [EvWrite nl]).
Proof.
  cbn [printStackRecord]. pose proof (pass_true_show stk) as H.
  destruct (pass true stk) as [st evs]. cbn [fst snd] in *. by rewrite H.
Qed.

Lemma printStackRecord_suppressing depth stk :
  printStackRecord (S (S depth)) stk false =
  Some (snd (pass false stk) ++
        if show (fst (pass false stk)) then [EvWrite nl]
        else snd (pass true stk) ++ [EvWrite nl]).
Proof.
  change (printStackRecord (S (S depth)) stk false)
    with (let '(st, evs) := pass false stk in
          if negb (show st)
          then match printStackRecord (S depth) stk true with
               | Some again => Some (evs ++ again)
               | None => None
               end
          else Some (evs ++ [EvWrite nl])).
  rewrite printStackRecord_all.
  destruct (pass false stk) as [st evs]. cbn [fst snd]. by destruct (show st).
Qed.

Lemma printStackRecord_total depth stk allFrames :
  (2 <= depth)%nat -> is_Some (printStackRecord depth stk allFrames).
Proof.
  intros H. destruct depth as [|[|d]]; [lia..|].
  destruct allFrames.
  - rewrite printStackRecord_all. eauto.
  - rewrite printStackRecord_suppressing. eauto.
Qed.

(** A suppressing loop writes nothing exactly on stacks of runtime frames. *)
Lemma frames_silent_suppressing st i stk :
  show st = false ->
  writes (snd (frames st i stk)) = [] <-> Forall internal_frame stk.
Proof.
  revert st i. induction stk as [|pc stk IH]; intros st i Hs; cbn [frames].
  - split; [constructor|done].
  - destruct (FuncForPC pc) as [f|] eqn:E.
    + rewrite (frame_resolved _ _ _ _ E). cbv zeta. rewrite Hs. cbn [negb andb].
      destruct (String.eqb (Name f) "runtime.goexit") eqn:Eg; cbn [orb].
      * specialize (IH (mkState false (String.eqb (Name f) "runtime.panic")) (S i) eq_refl).
        destruct (frames _ (S i) stk) as [st2 evs2]. cbn [fst snd] in *.
        rewrite Forall_cons, <- IH. cbn. split; [|tauto].
        intros H. split; [|done]. exists f. eauto using goexit_is_internal.
      * destruct (String.prefix "runtime." (Name f)) eqn:Ep.
        -- specialize (IH (mkState false (String.eqb (Name f) "runtime.panic")) (S i) eq_refl).
           destruct (frames _ (S i) stk) as [st2 evs2]. cbn [fst snd] in *.
           rewrite Forall_cons, <- IH. cbn. split; [|tauto].
           intros H. split; [|done]. exists f. eauto.
        -- destruct (frames _ (S i) stk) as [st2 evs2]. cbn. split; [done|].
           intros H. apply Forall_cons in H as [(g & Hg & Hp) _]. congruence.
    + rewrite (frame_unresolved _ _ _ E).
      destruct (frames _ (S i) stk) as [st2 evs2]. cbn. split; [done|].
      intros H. apply Forall_cons in H as [(g & Hg & Hp) _]. congruence.
Qed.

(** A loop that shows every frame writes nothing exactly on stacks of
    [runtime.goexit] frames. *)
Lemma frames_silent_showing st i stk :
  show st = true ->
  writes (snd (frames st i stk)) = [] <-> Forall goexit_frame stk.
Proof.
  revert st i. induction stk as [|pc stk IH]; intros st i Hs; cbn [frames].
  - split; [constructor|done].
  - destruct (FuncForPC pc) as [f|] eqn:E.
    + rewrite (frame_resolved _ _ _ _ E). cbv zeta. rewrite Hs. cbn [negb andb].
      rewrite orb_false_r.
      destruct (String.eqb (Name f) "runtime.goexit") eqn:Eg.
      * specialize (IH (mkState true (String.eqb (Name f) "runtime.panic")) (S i) eq_refl).
        destruct (frames _ (S i) stk) as [st2 evs2]. cbn [fst snd] in *.
        rewrite Forall_cons, <- IH. cbn. split; [|tauto].
        intros H. split; [|done]. exists f. split; [done|]. by apply String.eqb_eq.
      * destruct (frames _ (S i) stk) as [st2 evs2]. cbn. split; [done|].
        intros H. apply Forall_cons in H as [(g & Hg & Hn) _].
        assert (g = f) by congruence. subst g.
        apply String.eqb_eq in Hn. congruence.
    + rewrite (frame_unresolved _ _ _ E).
      destruct (frames _ (S i) stk) as [st2 evs2]. cbn. split; [done|].
      intros H. apply Forall_cons in H as [(g & Hg & Hp) _]. congruence.
Qed.



(** [wasPanic], when a frame is reached, tells whether the frame before it
    is the panic entry. *)
Lemma pass_wasPanic allFrames prior :
  wasPanic (fst (pass allFrames prior)) = follows_panic prior.
Proof.
  unfold pass, follows_panic.
  destruct prior as [|q prior _] using rev_ind; [done|].
  rewrite last_snoc, frames_snoc. cbn [fst].
  destruct (FuncForPC q) as [g|] eqn:E.
  - by rewrite (frame_resolved _ _ _ _ E).
  - by rewrite (frame_unresolved _ _ _ E).
Qed.

Lemma uintptr_small x : 0 <= x < 2 ^ ptrBits -> uintptr x = x.
Proof. intros H. unfold uintptr, uwrap. by apply Z.mod_small. Qed.

(** ** The claims on [printStackRecord] *)

(** C7, amended. In either pass, the address handed to [FileLine] for a
    resolvable frame is the frame's address moved back by one byte on 386
    and amd64, and by four bytes elsewhere (in [uintptr] arithmetic, which
    is the plain difference for an address above the function's entry and,
    for the four bytes, not below 4), when the frame is not the innermost
    one, its address lies strictly above the entry of its function, and the
    frame before it is not [runtime.panic]; in every other case, and so for
    an address that is the entry of its function, the address is looked up
    as it is. *)
Theorem lookup_address_adjustment
    (allFrames : bool) (prior : list Z) (pc : Z) (f : Func) (rest : list Z) :
  FuncForPC pc = Some f ->
  (exists later,
     lookups (snd (pass allFrames (prior ++ pc :: rest))) =
     lookups (snd (pass allFrames prior)) ++
     (if nonempty prior && (pc >? Entry f) && negb (follows_panic prior)
      then if is_x86 then uintptr (pc - 1) else uintptr (pc - 4)
      else pc) :: later) /\
  (0 <= Entry f < pc /\ pc < 2 ^ ptrBits -> uintptr (pc - 1) = pc - 1) /\
  (4 <= pc < 2 ^ ptrBits -> uintptr (pc - 4) = pc - 4).
Proof.
  intros Hf. split; [|split; intros H; apply uintptr_small; lia].
  unfold pass. rewrite frames_app. cbn [snd frames]. rewrite Nat.add_0_l.
  pose proof (pass_wasPanic allFrames prior) as Hp. unfold pass in Hp.
  destruct (frames (mkState allFrames false) 0 prior) as [st1 evs1].
  cbn [fst snd] in *.
  rewrite (frame_resolved _ _ _ _ Hf). cbv zeta.
  destruct (frames _ (S (length prior)) rest) as [st2 evs2].
  rewrite lookups_app. cbn [lookups omap looked_up].
  eexists. f_equal. f_equal.
  unfold tracepc_of. rewrite Hp. by destruct prior.
Qed.

(** C8, amended. When the suppressing pass over a stack writes no frame
    line, every frame of the stack resolves to a function of the runtime,
    and [printStackRecord] makes that pass, then exactly one more pass with
    every frame shown, then writes the closing empty line; the second pass
    writes no frame line only when the stack holds nothing but
    [runtime.goexit] frames (an empty stack included). No call nests deeper
    than two, so a depth bound of two or more always yields a result. *)
Theorem runtime_only_stack_second_pass (stk : list Z) (depth : nat) :
  (2 <= depth)%nat ->
  writes (snd (pass false stk)) = [] ->
  Forall internal_frame stk /\
  printStackRecord depth stk false =
    Some (snd (pass false stk) ++ snd (pass true stk) ++ [EvWrite nl]) /\
  (writes (snd (pass true stk)) = [] <-> Forall goexit_frame stk) /\
  (forall stk' allFrames, is_Some (printStackRecord depth stk' allFrames)).
Proof.
  intros Hd Hw. repeat split.
  - by apply (frames_silent_suppressing (mkState false false) 0).
  - destruct depth as [|[|d]]; [lia..|].
    rewrite printStackRecord_suppressing, pass_false_show, Hw. done.
  - by apply (frames_silent_showing (mkState true false) 0).
  - by apply (frames_silent_showing (mkState true false) 0).
  - intros stk' allFrames. by apply printStackRecord_total.
Qed.


(** ** Facts on the aggregation key *)

Lemma hash_step_spec h pc :
  hash_step h pc =
  let h1 := (h + pc) mod 2 ^ ptrBits in
  let h2 := (h1 + h1 * 2 ^ 10) mod 2 ^ ptrBits in
  Z.lxor h2 (h2 / 2 ^ 6).
Proof.
  unfold hash_step, uintptr, uwrap. cbv zeta.
  rewrite Z.shiftl_mul_pow2, Z.shiftr_div_pow2 by lia.
  by rewrite Zplus_mod_idemp_r.
Qed.

Lemma fold_hash_step slots h :
  fold_left hash_step slots h = spec_fold ptrBits h slots.
Proof.
  revert h. induction slots as [|pc slots IH]; intros h; [done|].
  cbn [fold_left spec_fold]. by rewrite IH, hash_step_spec.
Qed.

Lemma stack_key_spec slots : stack_key slots = spec_key ptrBits slots.
Proof.
  unfold stack_key, spec_key, uintptr, uwrap. cbv zeta.
  rewrite fold_hash_step.
  rewrite Z.shiftl_mul_pow2, Z.shiftr_div_pow2 by lia.
  by rewrite Zplus_mod_idemp_r.
Qed.

(** ** Facts on the totals *)

Lemma fold_add_total p t :
  let total := fold_left add_total p t in
  AllocBytes total = fold_left add64 (map AllocBytes p) (AllocBytes t) /\
  FreeBytes total = fold_left add64 (map FreeBytes p) (FreeBytes t) /\
  AllocObjects total = fold_left add64 (map AllocObjects p) (AllocObjects t) /\
  FreeObjects total = fold_left add64 (map FreeObjects p) (FreeObjects t).
Proof.
  revert t. induction p as [|r p IH]; intros t; [done|].
  cbn [fold_left map]. apply (IH (add_total t r)).
Qed.





(** ** The claims on the totals and the order *)


Lemma metric_order_strict_weak (f : MemProfileRecord -> Z) :
  StrictWeak (fun a b => f a >? f b).
Proof.
  split; intros *; rewrite ?Z.gtb_ltb, ?Z.ltb_lt, ?Z.ltb_ge; lia.
Qed.

Lemma lessFor_cases sortKey :
  (sortKey = "allocbytes" /\ lessFor sortKey = byAllocBytes_Less) \/
  (sortKey = "allocobjects" /\ lessFor sortKey = byAllocObjects_Less) \/
  (sortKey = "inuseobjects" /\ lessFor sortKey = byInUseObjects_Less) \/
  (sortKey <> "allocbytes" /\ sortKey <> "allocobjects" /\
   sortKey <> "inuseobjects" /\ lessFor sortKey = byInUseBytes_Less).
Proof.
  unfold lessFor.
  destruct (String.eqb_spec sortKey "allocbytes"); [by left|].
  destruct (String.eqb_spec sortKey "allocobjects"); [by right; left|].
  destruct (String.eqb_spec sortKey "inuseobjects"); [by right; right; left|].
  by right; right; right.
Qed.

Lemma lessFor_strict_weak sortKey : StrictWeak (lessFor sortKey).
Proof.
  destruct (lessFor_cases sortKey) as [[_ ->]|[[_ ->]|[[_ ->]|(_ & _ & _ & ->)]]];
    apply metric_order_strict_weak.
Qed.

Lemma StronglySorted_pairs {A} (R : A -> A -> Prop) (l : list A) :
  StronglySorted R l ->
  forall i j a b, (i < j)%nat -> l !! i = Some a -> l !! j = Some b -> R a b.
Proof.
  induction 1 as [|x l Hs IH Hx]; intros i j a b Hij Ha Hb; [done|].
  destruct j as [|j]; [lia|]. cbn in Hb.
  destruct i as [|i]; cbn in Ha.
  - injection Ha as <-. rewrite Forall_forall in Hx.
    apply Hx. apply list_elem_of_lookup. eauto.
  - apply (IH i j); [lia|done..].
Qed.

(** The contracts of the Go runtime and library the remaining claims rest
    on: [range] visits every entry of a map once, and [sort.Sort] permutes
    its argument into ascending order of a [Less] that is a strict weak
    ordering. *)
Hypothesis map_range_perm : forall m, map_range m ≡ₚ map_to_list m.
Hypothesis sort_Sort_perm : forall less l, sort_Sort less l ≡ₚ l.
Hypothesis sort_Sort_sorted : forall less l,
  StrictWeak less ->
  StronglySorted (fun a b => less b a = false) (sort_Sort less l).

Lemma heap_records_order sortKey (f : MemProfileRecord -> Z) p :
  lessFor sortKey = (fun a b => f a >? f b) ->
  non_increasing f (heap_records sortKey p).
Proof using sort_Sort_sorted.
  intros Hless i j a b Hij Ha Hb.
  pose proof (sort_Sort_sorted (lessFor sortKey)
                (map_range (merge_records p)).*2 (lessFor_strict_weak sortKey)) as Hs.
  pose proof (StronglySorted_pairs _ _ Hs i j a b Hij Ha Hb) as H. cbn beta in H.
  rewrite Hless, Z.gtb_ltb, Z.ltb_ge in H. done.
Qed.

(** C3. For each value of [sort], the records that [Heap] renders are in
    non-increasing order of the metric the value names: allocated bytes for
    [allocbytes], allocated objects for [allocobjects], in-use objects for
    [inuseobjects], and in-use bytes for every other value, [inuse] and the
    empty (absent) value among them. *)
Theorem records_sorted_by_metric (p : list MemProfileRecord) :
  (forall sortKey,
     sortKey <> "allocbytes" -> sortKey <> "allocobjects" ->
     sortKey <> "inuseobjects" ->
     non_increasing InUseBytes (heap_records sortKey p)) /\
  non_increasing InUseBytes (heap_records "inuse" p) /\
  non_increasing InUseBytes (heap_records "" p) /\
  non_increasing AllocBytes (heap_records "allocbytes" p) /\
  non_increasing AllocObjects (heap_records "allocobjects" p) /\
  non_increasing InUseObjects (heap_records "inuseobjects" p).
Proof using sort_Sort_sorted.
  split; [|repeat split; by apply heap_records_order].
  intros sortKey H1 H2 H3. apply heap_records_order.
  destruct (lessFor_cases sortKey) as [[? _]|[[? _]|[[? _]|(_ & _ & _ & ->)]]];
    done.
Qed.

(** ** Facts on the aggregation *)

(** The entry of a key after the loop, from the records of that key alone. *)
Lemma merge_lookup p m h :
  fold_left merge_record p m !! h =
  fold_left absorb (filter (fun r => key_of r = h) p) (m !! h).
Proof.
  revert m. induction p as [|r p IH]; intros m; [done|].
  cbn [fold_left]. rewrite IH. unfold merge_record. cbv zeta.
  fold (key_of r).
  destruct (decide (key_of r = h)) as [E|E].
  - rewrite filter_cons_True by done. cbn [fold_left].
    rewrite E, lookup_insert_eq. done.
  - rewrite filter_cons_False by done. by rewrite lookup_insert_ne.
Qed.

Lemma absorb_keeps_stack l stored v :
  fold_left absorb l stored = Some v ->
  stored = Some v \/ exists r, r ∈ l /\ Stack0 v = Stack0 r.
Proof.
  revert v. induction l as [|r l IH] using rev_ind; intros v; [by left|].
  rewrite fold_left_app. cbn [fold_left]. unfold absorb at 1.
  intros [= <-]. right. exists r. split; [apply elem_of_app; right; constructor|].
  by destruct (fold_left absorb l stored).
Qed.

(** Every record of the map sits under the key of its own stack. *)
Lemma merge_records_keys p k v :
  merge_records p !! k = Some v -> key_of v = k.
Proof.
  unfold merge_records. rewrite merge_lookup, lookup_empty.
  intros H. apply absorb_keeps_stack in H as [H|(r & Hr & Hs)]; [done|].
  apply list_elem_of_filter in Hr as [Hk _].
  unfold key_of in *. by rewrite Hs.
Qed.

Lemma filter_none {A} (P : A -> Prop) `{forall x, Decision (P x)} (l : list A) :
  Forall (fun x => ~ P x) l -> filter P l = [].
Proof.
  induction 1 as [|x l Hx _ IH]; [done|]. by rewrite filter_cons_False.
Qed.

(** The records of one key among those of a list that holds two of them. *)
Lemma filter_two_of_key l1 r1 l2 r2 l3 :
  key_of r2 = key_of r1 ->
  Forall (fun x => key_of x <> key_of r1) (l1 ++ l2 ++ l3) ->
  filter (fun r => key_of r = key_of r1) (l1 ++ r1 :: l2 ++ r2 :: l3) = [r1; r2].
Proof.
  intros Hk H. apply Forall_app in H as [H1 H]. apply Forall_app in H as [H2 H3].
  rewrite filter_app, filter_cons_True, filter_app, filter_cons_True by done.
  by rewrite !filter_none.
Qed.

(** The values of a map, with the value of one key set apart. *)
Lemma map_values_split (m : gmap Z MemProfileRecord) h v :
  m !! h = Some v ->
  (map_to_list m).*2 ≡ₚ v :: (map_to_list (delete h m)).*2.
Proof.
  intros H. rewrite <- (insert_delete_id m h v H) at 1.
  rewrite map_to_list_insert by apply lookup_delete_eq. done.
Qed.

(** ** The claim on the aggregation *)

(** C1, amended. When two records of the input have the same stack (the
    same [Stack0]) and no other record of the input has their aggregation
    key, the records that [Heap] renders hold exactly one record of that
    stack, and its four counters are the [int64] sums of the counters of
    the two. *)
Theorem identical_stacks_merged
    (sortKey : string) (l1 l2 l3 : list MemProfileRecord) (r1 r2 : MemProfileRecord) :
  Stack0 r1 = Stack0 r2 ->
  Forall (fun x => stack_key (Stack0 x) <> stack_key (Stack0 r1)) (l1 ++ l2 ++ l3) ->
  filter (fun e => Stack0 e = Stack0 r1)
         (heap_records sortKey (l1 ++ r1 :: l2 ++ r2 :: l3)) =
  [merged r1 r2].
Proof using map_range_perm sort_Sort_perm.
  intros Hstack Hothers.
  set (p := l1 ++ r1 :: l2 ++ r2 :: l3).
  assert (merge_records p !! key_of r1 = Some (merged r1 r2)) as Hm.
  { unfold merge_records. rewrite merge_lookup, lookup_empty.
    unfold p. rewrite filter_two_of_key; [|unfold key_of; congruence|done].
    cbn [fold_left]. unfold absorb, add_counts, merged. by rewrite Hstack. }
  apply Permutation_singleton_r.
  unfold heap_records. rewrite sort_Sort_perm, map_range_perm.
  rewrite (map_values_split _ _ _ Hm).
  rewrite filter_cons_True by done.
  rewrite filter_none; [done|].
  apply Forall_forall. intros v Hv Hs.
  apply list_elem_of_fmap in Hv as ([k v'] & -> & Hv).
  apply elem_of_map_to_list in Hv. cbn [snd] in Hs.
  apply lookup_delete_Some in Hv as [Hne Hv].
  apply merge_records_keys in Hv. unfold key_of in *. congruence.
Qed.

(** ** Further facts on the aggregation *)

Lemma Zsum_Permutation l1 l2 : l1 ≡ₚ l2 -> Zsum l1 = Zsum l2.
Proof.
  induction 1 as [|x l1 l2 _ IH|x y l|l1 l2 l3 _ IH1 _ IH2]; cbn [Zsum foldr] in *;
    try fold (Zsum l1) (Zsum l2) in *; lia.
Qed.

Lemma sum64_Permutation l1 l2 : l1 ≡ₚ l2 -> sum64 l1 = sum64 l2.
Proof. intros H. by rewrite !sum64_Zsum, (Zsum_Permutation _ _ H). Qed.

(** The records stored after one more record of the profile. *)
Lemma merge_record_stored pm r :
  stored_records (merge_record pm r) ≡ₚ
  match pm !! key_of r with
  | Some old => add_counts r old :: stored_records (delete (key_of r) pm)
  | None => r :: stored_records pm
  end.
Proof.
  unfold stored_records, merge_record. cbv zeta. fold (key_of r).
  destruct (pm !! key_of r) as [old|] eqn:E.
  - rewrite <- insert_delete_eq.
    rewrite map_to_list_insert by apply lookup_delete_eq. done.
  - by rewrite map_to_list_insert.
Qed.

Lemma stored_records_split (pm : gmap Z MemProfileRecord) h v :
  pm !! h = Some v -> stored_records pm ≡ₚ v :: stored_records (delete h pm).
Proof. apply map_values_split. Qed.

Lemma merge_record_sum f pm r :
  counter f ->
  int64 (Zsum (map f (stored_records (merge_record pm r)))) =
  int64 (Zsum (map f (stored_records pm)) + f r).
Proof.
  intros Hf.
  rewrite (Zsum_Permutation _ _ (Permutation_map f (merge_record_stored pm r))).
  destruct (pm !! key_of r) as [old|] eqn:E.
  - rewrite (Zsum_Permutation _ _ (Permutation_map f (stored_records_split _ _ _ E))).
    cbn [map Zsum foldr]. rewrite Hf. unfold add64.
    rewrite int64_add_l. apply f_equal. lia.
  - unfold Zsum. cbn [map foldr]. apply f_equal. lia.
Qed.

Lemma merge_records_sum f p pm :
  counter f ->
  int64 (Zsum (map f (stored_records (fold_left merge_record p pm)))) =
  int64 (Zsum (map f (stored_records pm)) + Zsum (map f p)).
Proof.
  intros Hf. revert pm. induction p as [|r p IH]; intros pm; cbn [fold_left map].
  - apply f_equal. cbn. lia.
  - rewrite IH, <- int64_add_l, merge_record_sum, int64_add_l by done.
    apply f_equal. unfold Zsum. cbn [foldr]. lia.
Qed.

Lemma heap_records_stored sortKey p :
  heap_records sortKey p ≡ₚ stored_records (merge_records p).
Proof using map_range_perm sort_Sort_perm.
  unfold heap_records, stored_records. by rewrite sort_Sort_perm, map_range_perm.
Qed.

(** Aggregation keeps the sum of every counter. *)
Lemma heap_records_sum f sortKey p :
  counter f -> sum64 (map f (heap_records sortKey p)) = sum64 (map f p).
Proof using map_range_perm sort_Sort_perm.
  intros Hf.
  rewrite (sum64_Permutation _ _ (Permutation_map f (heap_records_stored sortKey p))).
  rewrite !sum64_Zsum. unfold merge_records.
  rewrite merge_records_sum by done.
  unfold stored_records. rewrite map_to_list_empty. done.
Qed.

Lemma fold_add_total_stack p t : Stack0 (fold_left add_total p t) = Stack0 t.
Proof. revert t. induction p as [|r p IH]; intros t; [done|]. cbn. by rewrite IH. Qed.

Lemma heap_total_summed p : heap_total p = summed p zero_record.
Proof.
  unfold heap_total, summed, sum64.
  destruct (fold_add_total p zero_record) as (Hab & Hfb & Hao & Hfo).
  pose proof (fold_add_total_stack p zero_record) as Hs.
  destruct (fold_left add_total p zero_record). cbn in *. congruence.
Qed.

(** X1. The totals of the report are the totals of the raw profile:
    summing the rendered records, merged or not, gives the record of totals
    that summing the records of the input gives, whatever the map order,
    the sort and the collisions of keys; the header lines are those of the
    raw profile. *)
Theorem totals_kept_by_aggregation (sortKey : string) (p : list MemProfileRecord) :
  heap_total (heap_records sortKey p) = heap_total p /\
  header_line (heap_total (heap_records sortKey p)) = header_line (heap_total p) /\
  header_comment (heap_total (heap_records sortKey p)) = header_comment (heap_total p).
Proof using map_range_perm sort_Sort_perm.
  assert (heap_total (heap_records sortKey p) = heap_total p) as H.
  { rewrite !heap_total_summed. unfold summed.
    by rewrite !heap_records_sum. }
  by rewrite H.
Qed.

(** X2. The sort value only reorders the report: for any two values the
    rendered records are permutations of one another, and of the records
    stored in the map. *)
Theorem sort_value_only_reorders (key1 key2 : string) (p : list MemProfileRecord) :
  heap_records key1 p ≡ₚ heap_records key2 p /\
  heap_records key1 p ≡ₚ stored_records (merge_records p).
Proof using map_range_perm sort_Sort_perm.
  split; [|apply heap_records_stored].
  by rewrite !heap_records_stored.
Qed.

Lemma stored_keys (l : list (Z * MemProfileRecord)) :
  Forall (fun kv => key_of (snd kv) = fst kv) l ->
  map key_of (l.*2) = l.*1.
Proof.
  induction 1 as [|[k v] l Hkv _ IH]; [done|]. cbn in *. by rewrite Hkv, IH.
Qed.

Lemma merge_records_stored_keys p :
  map key_of (stored_records (merge_records p)) = (map_to_list (merge_records p)).*1.
Proof.
  apply stored_keys, Forall_forall. intros [k v] H.
  apply elem_of_map_to_list in H. by apply merge_records_keys in H.
Qed.

Lemma merge_record_size pm r : (size (merge_record pm r) <= S (size pm))%nat.
Proof.
  unfold merge_record. cbv zeta. rewrite map_size_insert.
  destruct (pm !! _); unfold id; lia.
Qed.

Lemma merge_records_size p pm :
  (size (fold_left merge_record p pm) <= size pm + length p)%nat.
Proof.
  revert pm. induction p as [|r p IH]; intros pm; cbn [fold_left length]; [lia|].
  pose proof (IH (merge_record pm r)). pose proof (merge_record_size pm r). lia.
Qed.

(** X3. No two rendered records have the same aggregation key, and the
    report has at most as many records as the profile. *)
Theorem rendered_keys_distinct (sortKey : string) (p : list MemProfileRecord) :
  NoDup (map key_of (heap_records sortKey p)) /\
  (length (heap_records sortKey p) <= length p)%nat.
Proof using map_range_perm sort_Sort_perm.
  pose proof (heap_records_stored sortKey p) as Hperm. split.
  - rewrite (Permutation_map key_of Hperm), merge_records_stored_keys.
    apply NoDup_fst_map_to_list.
  - rewrite (Permutation_length Hperm). unfold stored_records.
    rewrite length_fmap, length_map_to_list.
    pose proof (merge_records_size p ∅) as H. rewrite map_size_empty in H. done.
Qed.

Lemma absorb_last l stored r :
  exists v, fold_left absorb (l ++ [r]) stored = Some v /\ Stack0 v = Stack0 r.
Proof.
  rewrite fold_left_app. cbn [fold_left]. unfold absorb at 1.
  eexists. split; [done|]. by destruct (fold_left absorb l stored).
Qed.

(** A list whose filtering is not empty, cut after the last element kept. *)
Lemma filter_last_split {A} (P : A -> Prop) `{forall x, Decision (P x)} (p l : list A) r :
  filter P p = l ++ [r] ->
  exists l1 l2, p = l1 ++ r :: l2 /\ P r /\ Forall (fun x => ~ P x) l2.
Proof.
  revert l r. induction p as [|x p IH] using rev_ind; intros l r Hf.
  - by destruct l.
  - rewrite filter_app in Hf. destruct (decide (P x)) as [Hx|Hx].
    + rewrite filter_cons_True, filter_nil in Hf by done.
      apply app_inj_tail in Hf as [_ ->]. by exists p, [].
    + rewrite filter_cons_False, filter_nil, app_nil_r in Hf by done.
      destruct (IH _ _ Hf) as (l1 & l2 & -> & Hr & Hl2).
      exists l1, (l2 ++ [x]). rewrite <- app_assoc. split; [done|].
      split; [done|]. apply Forall_app. by split; [|constructor].
Qed.

Lemma merge_records_lookup_Some p h v :
  merge_records p !! h = Some v ->
  exists l1 r l2,
    p = l1 ++ r :: l2 /\ key_of r = h /\ Stack0 v = Stack0 r /\
    Forall (fun x => key_of x <> h) l2.
Proof.
  unfold merge_records. rewrite merge_lookup, lookup_empty.
  destruct (filter (fun r => key_of r = h) p) as [|x l _] eqn:E using rev_ind; [done|].
  intros Hv. destruct (absorb_last l None x) as (v' & Hv' & Hs).
  assert (v' = v) as -> by congruence.
  destruct (filter_last_split _ _ _ _ E) as (l1 & l2 & -> & Hx & Hl2).
  by exists l1, x, l2.
Qed.

Lemma merge_records_lookup_elem p r :
  r ∈ p -> is_Some (merge_records p !! key_of r).
Proof.
  intros Hr. unfold merge_records. rewrite merge_lookup, lookup_empty.
  assert (r ∈ filter (fun x => key_of x = key_of r) p) as Hin
    by (by apply list_elem_of_filter).
  destruct (filter _ p) as [|x l _] using rev_ind; [by apply elem_of_nil in Hin|].
  destruct (absorb_last l None x) as (v & -> & _). by eexists.
Qed.

Lemma elem_of_stored (pm : gmap Z MemProfileRecord) v :
  v ∈ stored_records pm <-> exists k, pm !! k = Some v.
Proof.
  unfold stored_records. rewrite list_elem_of_fmap. split.
  - intros ([k v'] & -> & H). exists k. by apply elem_of_map_to_list.
  - intros [k H]. exists (k, v). split; [done|]. by apply elem_of_map_to_list.
Qed.

(** X4. No stack of the profile is dropped and none is invented: every
    record of the input has a rendered record of its key, and every
    rendered record shows the stack of the last record of the input that
    has its key. *)
Theorem rendered_stacks_are_last_of_key (sortKey : string) (p : list MemProfileRecord) :
  (forall r, r ∈ p ->
     exists e, e ∈ heap_records sortKey p /\ key_of e = key_of r) /\
  (forall e, e ∈ heap_records sortKey p ->
     exists l1 r l2,
       p = l1 ++ r :: l2 /\ Stack0 e = Stack0 r /\
       Forall (fun x => key_of x <> key_of r) l2).
Proof using map_range_perm sort_Sort_perm.
  pose proof (heap_records_stored sortKey p) as Hperm. split.
  - intros r Hr. destruct (merge_records_lookup_elem p r Hr) as [e He].
    exists e. split; [|by apply merge_records_keys in He].
    rewrite Hperm. apply elem_of_stored. eauto.
  - intros e He. rewrite Hperm in He. apply elem_of_stored in He as [k Hk].
    destruct (merge_records_lookup_Some _ _ _ Hk) as (l1 & r & l2 & -> & <- & Hs & Hl2).
    by exists l1, r, l2.
Qed.

Lemma merge_record_lookup_ne pm r k :
  k <> key_of r -> merge_record pm r !! k = pm !! k.
Proof.
  intros H. unfold merge_record. cbv zeta. fold (key_of r).
  by rewrite lookup_insert_ne.
Qed.

Lemma merge_fresh_keys p pm :
  NoDup (map key_of p) ->
  Forall (fun r => pm !! key_of r = None) p ->
  stored_records (fold_left merge_record p pm) ≡ₚ stored_records pm ++ p.
Proof.
  revert pm. induction p as [|r p IH]; intros pm Hnd Hfresh; cbn [fold_left].
  - by rewrite app_nil_r.
  - cbn [map] in Hnd. apply NoDup_cons in Hnd as [Hr Hnd].
    apply Forall_cons in Hfresh as [Hrf Hfresh].
    rewrite IH; [|done|].
    + pose proof (merge_record_stored pm r) as Hs. rewrite Hrf in Hs.
      rewrite Hs. by rewrite <- Permutation_middle.
    + rewrite Forall_forall in *. intros x Hx.
      rewrite merge_record_lookup_ne; [by apply Hfresh|].
      intros E. apply Hr. rewrite <- E. apply list_elem_of_In, in_map.
      by apply list_elem_of_In.
Qed.

(** X5. A profile whose records have pairwise distinct keys is rendered
    record for record: the report holds the records of the input, unmerged
    and unchanged, in the order of the sort. *)
Theorem distinct_keys_not_merged (sortKey : string) (p : list MemProfileRecord) :
  NoDup (map key_of p) ->
  heap_records sortKey p ≡ₚ p.
Proof using map_range_perm sort_Sort_perm.
  intros Hnd. rewrite heap_records_stored. unfold merge_records.
  rewrite merge_fresh_keys; [|done|].
  - unfold stored_records. by rewrite map_to_list_empty.
  - apply Forall_forall. intros r _. apply lookup_empty.
Qed.

Lemma add64_comm a b : add64 a b = add64 b a.
Proof. unfold add64. f_equal. lia. Qed.

Lemma sum64_snoc l x : sum64 (l ++ [x]) = add64 (sum64 l) x.
Proof. unfold sum64. by rewrite fold_left_app. Qed.

Lemma summed_single r : int64_record r -> summed [r] r = r.
Proof.
  intros (H1 & H2 & H3 & H4). unfold summed, sum64, add64. cbn [map fold_left].
  rewrite !Z.add_0_l, !int64_id by done. by destruct r.
Qed.

(** The entry of a key that every record of the list has. *)
Lemma absorb_all l r :
  Forall int64_record (l ++ [r]) ->
  fold_left absorb (l ++ [r]) None = Some (summed (l ++ [r]) r).
Proof.
  revert r. induction l as [|r' l IH] using rev_ind; intros r Hwf.
  - apply Forall_cons in Hwf as [Hr _]. cbn [app fold_left]. unfold absorb.
    by rewrite summed_single.
  - apply Forall_app in Hwf as [Hwf _].
    rewrite fold_left_app, (IH r' Hwf). cbn [fold_left]. unfold absorb.
    f_equal. unfold add_counts, summed.
    cbn [AllocBytes FreeBytes AllocObjects FreeObjects Stack0].
    rewrite !(map_app _ (l ++ [r']) [r]). cbn [map].
    rewrite !(sum64_snoc (map _ (l ++ [r']))).
    f_equal; apply add64_comm.
Qed.

(** X6. Any number of records of one key merge into one: when every record
    of a profile has the key of the last one (as when all have one stack),
    the report is the single record with the stack of the last record and,
    as counters, the [int64] sums over the whole profile. *)
Theorem same_key_records_merge_into_one
    (sortKey : string) (earlier : list MemProfileRecord) (last : MemProfileRecord) :
  Forall (fun r => key_of r = key_of last) earlier ->
  Forall int64_record (earlier ++ [last]) ->
  heap_records sortKey (earlier ++ [last]) = [summed (earlier ++ [last]) last].
Proof using map_range_perm sort_Sort_perm.
  intros Hkey Hwf. set (p := earlier ++ [last]).
  assert (Forall (fun r => key_of r = key_of last) p) as Hall
    by (apply Forall_app; split; [done|by constructor]).
  assert (merge_records p = {[key_of last := summed p last]}) as Hm.
  { apply map_eq. intros k. unfold merge_records.
    rewrite merge_lookup, lookup_empty.
    destruct (decide (k = key_of last)) as [->|Hk].
    - rewrite lookup_singleton_eq.
      replace (filter _ p) with p; [by apply absorb_all|].
      clear -Hall. induction Hall as [|x l Hx _ IH]; [done|].
      by rewrite filter_cons_True, <- IH.
    - rewrite lookup_singleton_ne by done.
      rewrite filter_none; [done|].
      eapply Forall_impl; [exact Hall|]. cbn. congruence. }
  apply Permutation_singleton_r. rewrite heap_records_stored, Hm.
  unfold stored_records. by rewrite map_to_list_singleton.
Qed.

(** X7. For an empty profile [Heap] renders no record: what it writes
    ahead of the [runtime.MemStats] block of lines 194 to 241, which ends
    every report and which [Heap] above leaves out, is the two header
    lines, with every figure zero, whatever the sort value. *)
Theorem empty_profile_report (depth : nat) (sortKey : string) :
  heap_records sortKey [] = [] /\
  Heap depth sortKey [] =
  Some ["heap profile: 0: 0 [0: 0]" +:+ rate_suffix;
        "# heap profile: 0: 0.00B [0: 0.00B]" +:+ rate_suffix +:+ nl].
Proof using map_range_perm sort_Sort_perm.
  assert (heap_records sortKey [] = []) as H.
  { apply Permutation_nil_r. rewrite heap_records_stored.
    unfold stored_records, merge_records. cbn [fold_left].
    by rewrite map_to_list_empty. }
  split; [done|]. unfold Heap. rewrite H. by destruct depth.
Qed.

Lemma lessFor_default sortKey :
  sortKey <> "allocbytes" -> sortKey <> "allocobjects" -> sortKey <> "inuseobjects" ->
  lessFor sortKey = byInUseBytes_Less.
Proof.
  intros H1 H2 H3.
  destruct (lessFor_cases sortKey) as [[? _]|[[? _]|[[? _]|(_ & _ & _ & ->)]]];
    done.
Qed.

(** The totals do not depend on the sort value, the map order or the
    sort. *)
Lemma heap_records_total sortKey p :
  heap_total (heap_records sortKey p) = heap_total p.
Proof using map_range_perm sort_Sort_perm.
  rewrite !heap_total_summed. unfold summed. by rewrite !heap_records_sum.
Qed.

(** ** Further facts on [printStackRecord] *)

(** X9. A call that shows all frames, or whose suppressing pass writes a
    frame line, makes that one pass, writes the closing empty line and
    calls itself no further: a depth of one is enough. *)
Theorem shown_stack_single_pass (depth : nat) (stk : list Z) (allFrames : bool) :
  (1 <= depth)%nat ->
  allFrames = true \/ writes (snd (pass allFrames stk)) <> [] ->
  printStackRecord depth stk allFrames =
  Some (snd (pass allFrames stk) ++ [EvWrite nl]).
Proof.
  intros Hd Hshow. destruct depth as [|d]; [lia|]. cbn [printStackRecord].
  assert (show (fst (pass allFrames stk)) = true) as Hs.
  { unfold pass in *. rewrite frames_show. cbn [show].
    destruct Hshow as [->|Hw]; [done|].
    destruct (writes _); [done|]. by rewrite orb_true_r. }
  destruct (pass allFrames stk) as [st evs]. cbn [fst snd] in *. by rewrite Hs.
Qed.

Lemma frame_writes_bound st i pc : (length (writes (snd (frame st i pc))) <= 1)%nat.
Proof.
  destruct (FuncForPC pc) as [f|] eqn:E.
  - rewrite (frame_resolved _ _ _ _ E). cbv zeta. by destruct (_ || _); cbn; lia.
  - rewrite (frame_unresolved _ _ _ E). cbn. lia.
Qed.

Lemma frames_writes_bound st i stk :
  (length (writes (snd (frames st i stk))) <= length stk)%nat.
Proof.
  revert st i. induction stk as [|pc stk IH]; intros st i; cbn [frames]; [done|].
  pose proof (frame_writes_bound st i pc) as H1.
  destruct (frame st i pc) as [st1 evs1].
  specialize (IH st1 (S i)). destruct (frames st1 (S i) stk) as [st2 evs2].
  cbn [fst snd length] in *. rewrite writes_app, length_app. lia.
Qed.

(** X10. Whatever the stack and the flag, [printStackRecord] writes at
    most one line for each address of the stack, even when it makes two
    passes, and then the closing empty line, which is the last thing it
    writes. *)
Theorem printStackRecord_output_shape (depth : nat) (stk : list Z) (allFrames : bool) :
  exists evs lines,
    printStackRecord (S (S depth)) stk allFrames = Some evs /\
    writes evs = lines ++ [nl] /\
    (length lines <= length stk)%nat.
Proof.
  destruct allFrames.
  - rewrite printStackRecord_all. eexists _, _. split; [done|].
    rewrite writes_app. split; [done|]. apply frames_writes_bound.
  - rewrite printStackRecord_suppressing, pass_false_show.
    destruct (writes (snd (pass false stk))) as [|l ls] eqn:E; cbn [nonempty].
    + eexists _, _. split; [done|]. rewrite !writes_app, E. cbn [app].
      split; [done|]. apply frames_writes_bound.
    + eexists _, _. split; [done|]. rewrite writes_app.
      split; [done|]. apply frames_writes_bound.
Qed.

Lemma frames_unresolved_written st i stk pc :
  pc ∈ stk -> FuncForPC pc = None ->
  hex_line pc ∈ writes (snd (frames st i stk)).
Proof.
  intros Hin Hpc. revert st i.
  induction stk as [|q stk IH]; intros st i; [by apply elem_of_nil in Hin|].
  cbn [frames]. apply elem_of_cons in Hin as [<-|Hin].
  - rewrite (frame_unresolved _ _ _ Hpc).
    destruct (frames _ (S i) stk) as [st2 evs2]. cbn. by left.
  - destruct (frame st i q) as [st1 evs1].
    specialize (IH Hin st1 (S i)). destruct (frames st1 (S i) stk) as [st2 evs2].
    cbn [snd] in *. rewrite writes_app. apply elem_of_app. by right.
Qed.

(** X11. An address that resolves to no function is never lost: wherever
    it stands in the stack and whatever the flag, [printStackRecord] writes
    its bare hexadecimal line, and makes a single pass to do so. *)
Theorem unresolved_address_always_written
    (depth : nat) (stk : list Z) (allFrames : bool) (pc : Z) :
  (1 <= depth)%nat ->
  pc ∈ stk ->
  FuncForPC pc = None ->
  printStackRecord depth stk allFrames =
    Some (snd (pass allFrames stk) ++ [EvWrite nl]) /\
  hex_line pc ∈ writes (snd (pass allFrames stk)).
Proof.
  intros Hd Hin Hpc.
  pose proof (frames_unresolved_written (mkState allFrames false) 0 stk pc Hin Hpc) as Hw.
  split; [|done].
  destruct depth as [|d]; [lia|]. cbn [printStackRecord].
  assert (show (fst (pass allFrames stk)) = true) as Hs.
  { unfold pass in *. rewrite frames_show.
    destruct (writes _); [by apply elem_of_nil in Hw|]. by rewrite orb_true_r. }
  destruct (pass allFrames stk) as [st evs]. cbn [fst snd] in *. by rewrite Hs.
Qed.

Lemma not_runtime_name name :
  String.prefix "runtime." name = false ->
  String.eqb name "runtime.goexit" = false /\ String.eqb name "runtime.panic" = false.
Proof.
  intros H. split; apply String.eqb_neq; intros ->; done.
Qed.

(** X12. A frame of a function outside the runtime (its name does not
    start with [runtime.]) is written in every pass, wherever it stands,
    with the file and line of its lookup address; the frames after it are
    rendered with suppression off. *)
Theorem user_frame_always_written
    (allFrames : bool) (before : list Z) (q : Z) (f : Func) (rest : list Z) :
  FuncForPC q = Some f ->
  String.prefix "runtime." (Name f) = false ->
  let addr := tracepc_of (length before) q f (follows_panic before) in
  let line := frame_line q f (fst (FileLine f addr)) (snd (FileLine f addr)) in
  writes (snd (pass allFrames (before ++ q :: rest))) =
    writes (snd (pass allFrames before)) ++ [line] ++
    writes (snd (frames (mkState true false) (S (length before)) rest)).
Proof.
  intros Hq Hname addr line.
  destruct (not_runtime_name _ Hname) as [Hg Hp].
  pose proof (pass_wasPanic allFrames before) as Hw.
  unfold pass in *. rewrite frames_app. cbn [snd frames]. rewrite Nat.add_0_l.
  destruct (frames (mkState allFrames false) 0 before) as [st1 evs1].
  cbn [fst snd] in *.
  rewrite (frame_resolved _ _ _ _ Hq). cbv zeta.
  rewrite Hg, Hp, Hname, Hw. rewrite andb_false_r. cbn [orb].
  fold addr. fold line.
  destruct (frames _ (S (length before)) rest) as [st2 evs2].
  by rewrite !writes_app.
Qed.

(** X13. The runtime frames at the head of a stack are hidden by the
    suppressing pass, yet each of them is looked up: the pass writes what
    the loop writes on the rest of the stack, entered with suppression
    still on, and has called [FileLine] once for each leading frame. *)
Theorem leading_runtime_frames_hidden (lead rest : list Z) :
  Forall internal_frame lead ->
  fst (pass false lead) = mkState false (follows_panic lead) /\
  writes (snd (pass false (lead ++ rest))) =
    writes (snd (frames (mkState false (follows_panic lead)) (length lead) rest)) /\
  length (lookups (snd (pass false lead))) = length lead.
Proof.
  intros Hlead.
  assert (writes (snd (pass false lead)) = []) as Hw
    by (by apply (frames_silent_suppressing (mkState false false) 0)).
  assert (fst (pass false lead) = mkState false (follows_panic lead)) as Hst.
  { pose proof (pass_false_show lead) as Hs. rewrite Hw in Hs.
    pose proof (pass_wasPanic false lead) as Hp.
    destruct (fst (pass false lead)). cbn in *. congruence. }
  split; [done|]. split.
  - unfold pass in *. rewrite frames_app. cbn [snd]. rewrite Nat.add_0_l.
    by rewrite writes_app, Hw, Hst.
  - clear Hw Hst. unfold pass. generalize (mkState false false), 0%nat.
    induction Hlead as [|pc lead (f & Hf & _) _ IH]; intros st i; [done|].
    cbn [frames]. rewrite (frame_resolved _ _ _ _ Hf). cbv zeta.
    specialize (IH (mkState
      (if String.eqb (Name f) "runtime.goexit"
          || negb (show st) && String.prefix "runtime." (Name f)
       then show st else true) (String.eqb (Name f) "runtime.panic")) (S i)).
    destruct (frames _ (S i) lead) as [st2 evs2]. cbn [snd] in *.
    destruct (_ || _); rewrite lookups_app, length_app, IH; done.
Qed.

(** X14. When the innermost frame is not a runtime frame (it resolves to no
    function, or to one outside the runtime), the flag makes no difference:
    both passes do the same, and [printStackRecord] gives the same result
    with suppression as without. *)
Theorem visible_head_makes_flag_irrelevant (depth : nat) (pc : Z) (rest : list Z) :
  ~ internal_frame pc ->
  pass false (pc :: rest) = pass true (pc :: rest) /\
  printStackRecord depth (pc :: rest) false = printStackRecord depth (pc :: rest) true.
Proof.
  intros Hpc.
  assert (frame (mkState false false) 0 pc = frame (mkState true false) 0 pc) as Hf.
  { destruct (FuncForPC pc) as [f|] eqn:E.
    - destruct (String.prefix "runtime." (Name f)) eqn:Ep.
      { exfalso. apply Hpc. exists f. eauto. }
      destruct (not_runtime_name _ Ep) as [Hg _].
      rewrite !(frame_resolved _ _ _ _ E). cbv zeta. cbn [show wasPanic].
      by rewrite Hg, Ep.
    - by rewrite !(frame_unresolved _ _ _ E). }
  assert (pass false (pc :: rest) = pass true (pc :: rest)) as Hpass.
  { unfold pass. cbn [frames]. by rewrite Hf. }
  split; [done|].
  destruct depth as [|d]; [done|]. cbn [printStackRecord]. rewrite Hpass.
  pose proof (pass_true_show (pc :: rest)) as Hs.
  destruct (pass true (pc :: rest)) as [st evs]. cbn [fst] in Hs. by rewrite Hs.
Qed.

(** X15. In each pass [FileLine] is called exactly once for every address
    of the stack that resolves to a function, whether the frame is then
    written or hidden, and never for an address that does not resolve. *)
Theorem one_lookup_per_resolved_frame (allFrames : bool) (stk : list Z) :
  length (lookups (snd (pass allFrames stk))) =
  length (filter (fun pc => is_Some (FuncForPC pc)) stk).
Proof.
  unfold pass. generalize (mkState allFrames false), 0%nat.
  induction stk as [|pc stk IH]; intros st i; [done|]. cbn [frames].
  destruct (FuncForPC pc) as [f|] eqn:E.
  - rewrite (frame_resolved _ _ _ _ E). cbv zeta.
    rewrite filter_cons_True by (by rewrite E).
    match goal with |- context [frames ?s (S i) stk] => specialize (IH s (S i)) end.
    destruct (frames _ (S i) stk) as [st2 evs2]. cbn [snd] in *.
    destruct (_ || _); rewrite lookups_app, length_app, IH; done.
  - rewrite (frame_unresolved _ _ _ E).
    rewrite filter_cons_False by (rewrite E; by intros [? ?]).
    specialize (IH (mkState true false) (S i)).
    destruct (frames _ (S i) stk) as [st2 evs2]. cbn [snd] in *.
    by rewrite lookups_app, length_app, IH.
Qed.

End Model.

(** ** The claim on the aggregation key *)

Lemma lxor_bound n a b :
  0 <= a < 2 ^ n -> 0 <= b < 2 ^ n -> 0 <= Z.lxor a b < 2 ^ n.
Proof.
  intros Ha Hb. split; [apply Z.lxor_nonneg; lia|].
  destruct (Z.eq_dec (Z.lxor a b) 0) as [->|Hne]; [lia|].
  assert (0 < Z.lxor a b) by (pose proof (proj2 (Z.lxor_nonneg a b)); lia).
  assert (0 <= n) as Hn.
  { destruct (Z.lt_ge_cases n 0) as [Hlt|]; [|done].
    rewrite Z.pow_neg_r in Ha by done. lia. }
  apply Z.log2_lt_pow2; [done|].
  pose proof (Z.log2_lxor a b ltac:(lia) ltac:(lia)) as Hl.
  assert (forall x, 0 <= x < 2 ^ n -> x = 0 \/ Z.log2 x < n) as Hlog.
  { intros x Hx. destruct (Z.eq_dec x 0); [by left|right].
    apply Z.log2_lt_pow2; lia. }
  destruct (Hlog a Ha) as [->|], (Hlog b Hb) as [->|];
    rewrite ?Z.lxor_0_l, ?Z.lxor_0_r in *; try done;
    cbn in Hl; lia.
Qed.

Lemma spec_key_range addresses : 0 <= spec_key 64 addresses < 2 ^ 64.
Proof.
  unfold spec_key. cbv zeta.
  set (h := (_ + _) mod 2 ^ 64).
  assert (0 <= h < 2 ^ 64) as Hh by (apply Z.mod_pos_bound; lia).
  apply lxor_bound; [done|].
  split; [apply Z.div_pos; lia|].
  apply Z.le_lt_trans with h; [|lia].
  apply Z.div_le_upper_bound; nia.
Qed.

(** C6, amended. The key under which [Heap] stores a record is the hash
    of the specification taken over all 32 slots of the record's [Stack0]
    in order, the stack addresses and then the zero slots that fill the
    array, not over the stack addresses alone: from [h = 0], [h := h + pc],
    [h := h + (h << 10)], [h := h xor (h >> 6)] for each slot, then
    [h := h + (h << 3)], [h := h xor (h >> 11)], every step in the width
    of [uintptr].  Where [uintptr] has 64 bits the key is a 64-bit value. *)
Theorem aggregation_key_is_spec_hash
    (bits : Z) (pm : gmap Z MemProfileRecord) (r : MemProfileRecord) :
  let key := spec_key bits (Stack0 r) in
  merge_record bits pm r =
    <[key := match pm !! key with
             | Some old => add_counts r old
             | None => r
             end]> pm /\
  0 <= spec_key 64 (Stack0 r) < 2 ^ 64.
Proof.
  cbv zeta. split; [|apply spec_key_range].
  unfold merge_record. cbv zeta. by rewrite stack_key_spec.
Qed.

(** C6, as worded, fails: the hash of the stack addresses alone is not the
    key.  For the stack of the one address 5 the loop of lines 122 to 126
    goes on over the 31 zero slots of [Stack0], which keep mixing [h],
    and the record is stored under another key than the hash of [5]. *)
Lemma key_folds_the_zero_slots :
  Stack (mkRecord 0 0 0 0 (Sample.slots [5])) = [5] /\
  stack_key 64 (Stack0 (mkRecord 0 0 0 0 (Sample.slots [5]))) <>
    spec_key 64 (Stack (mkRecord 0 0 0 0 (Sample.slots [5]))) /\
  merge_record 64 ∅ (mkRecord 0 0 0 0 (Sample.slots [5]))
    !! spec_key 64 (Stack (mkRecord 0 0 0 0 (Sample.slots [5]))) = None.
Proof.
  split; [reflexivity|]. split.
  - intros H. vm_compute in H. discriminate H.
  - apply lookup_insert_None. split; [apply lookup_empty|].
    intros H. vm_compute in H. discriminate H.
Qed.

(** ** The claims on [formatSize] *)

(** C4, amended. [formatSize 999] is ["999.00B"], [formatSize 1024] is
    ["1.00KB"], and [formatSize (1024*1024*1024*1024*2)] is ["2.00TB"]: it
    ends in [TB] and has two decimal places. *)
Theorem formatSize_examples :
  formatSize 999 = "999.00B" /\
  formatSize 1024 = "1.00KB" /\
  formatSize (1024 * 1024 * 1024 * 1024 * 2) = "2.00TB".
Proof. by vm_compute. Qed.

(** C4 as stated fails: two tebibytes are rendered with decimal places. *)
Lemma formatSize_two_TiB_has_decimals :
  formatSize (1024 * 1024 * 1024 * 1024 * 2) = "2.00TB" /\
  no_decimal_point (formatSize (1024 * 1024 * 1024 * 1024 * 2)) = false.
Proof. by vm_compute. Qed.

Lemma formatSize_1000_to_1023 :
  forallb (fun n => String.eqb (formatSize (1000 + Z.of_nat n))
                               (just_below_KB (1000 + Z.of_nat n)))
          (seq 0 24) = true.
Proof. by vm_compute. Qed.

(** C9, amended. For every size from 1000 to 1023, [formatSize] renders
    the size in [KB]: as ["0.98KB"] up to 1008, as ["0.99KB"] from 1009 to
    1018, and, by the rounding to two decimal places, as ["1.00KB"] from
    1019 to 1023. *)
Theorem formatSize_just_below_KB (size : Z) :
  1000 <= size <= 1023 ->
  formatSize size =
  if size <=? 1008 then "0.98KB" else if size <=? 1018 then "0.99KB" else "1.00KB".
Proof.
  intros H. pose proof formatSize_1000_to_1023 as Hall.
  rewrite forallb_forall in Hall.
  specialize (Hall (Z.to_nat (size - 1000))).
  replace (1000 + Z.of_nat (Z.to_nat (size - 1000))) with size in Hall by lia.
  apply String.eqb_eq, Hall, in_seq. lia.
Qed.

Lemma formatSize_just_below_KB_witness :
  1000 <= 1000 <= 1023 /\ formatSize 1000 = "0.98KB".
Proof.
  split; [lia|]. apply (formatSize_just_below_KB 1000). lia.
Defined.

(** C9 as stated fails: 1023 bytes are rendered as one kilobyte. *)
Lemma formatSize_1023_is_one_KB :
  1000 <= 1023 <= 1023 /\ formatSize 1023 = "1.00KB".
Proof. split; [lia|]. by vm_compute. Qed.

(** ** The claim on the pause history *)

Lemma countdown_pauseNs PauseNs lo n acc :
  pauseNs (countdown (pause_body PauseNs) lo n acc) =
  pauseNs acc ++ map (fun i => int64 (nth i PauseNs 0)) (rev (seq (S lo) n)).
Proof.
  revert acc. induction n as [|n IH]; intros acc; cbn [countdown].
  - by rewrite app_nil_r.
  - rewrite IH, seq_S, rev_app_distr. cbn [pause_body pauseNs rev app map].
    rewrite <- app_assoc. cbn [app]. do 4 f_equal. lia.
Qed.

(** The pauses [Heap] prints, for every input: the slots from the newest
    down to slot 1, then from slot 255 down to the one after the newest.
    Slot 0 is in neither run. *)
Lemma pause_history_order NumGC PauseNs :
  let k := Z.to_nat (uwrap 32 (NumGC + 255) mod 256) in
  pauseNs (pause_history NumGC PauseNs) =
  map (fun i => int64 (nth i PauseNs 0))
      (rev (seq 1 k) ++ rev (seq (S k) (255 - k))).
Proof.
  cbv zeta. unfold pause_history. cbv zeta.
  rewrite !countdown_pauseNs. cbn [pauseNs app]. by rewrite map_app.
Qed.

(** C5, on the code. With one collection recorded, its pause of 7 ns is
    in slot 0, the newest slot; the history printed is the 255 other slots,
    all zero, and the pause is missing from it. *)
Theorem pause_history_misses_slot_0 :
  uwrap 32 (1 + 255) mod 256 = 0 /\
  nth 0 (7 :: replicate 255 0) 0 = 7 /\
  pauseNs (pause_history 1 (7 :: replicate 255 0)) = replicate 255 0.
Proof. by vm_compute. Qed.

(** ** The sample runtime meets the contracts *)

Lemma sample_map_range_perm (m : gmap Z MemProfileRecord) :
  Sample.map_range m ≡ₚ map_to_list m.
Proof. done. Qed.

Lemma sample_sort_perm less (l : list MemProfileRecord) :
  Sample.sort_Sort less l ≡ₚ l.
Proof. apply merge_sort_Permutation. Qed.

Lemma StronglySorted_weaken {A} (R1 R2 : A -> A -> Prop) (l : list A) :
  (forall a b, R1 a b -> R2 a b) -> StronglySorted R1 l -> StronglySorted R2 l.
Proof.
  intros HR. induction 1 as [|x l Hs IH Hx]; constructor; [done|].
  eapply Forall_impl; [exact Hx|]. intros b. apply HR.
Qed.

Lemma sample_sort_sorted less (l : list MemProfileRecord) :
  StrictWeak less ->
  StronglySorted (fun a b => less b a = false) (Sample.sort_Sort less l).
Proof.
  intros [Hirr Htrans Hinc].
  apply (StronglySorted_weaken (fun a b => negb (less b a))).
  { intros a b H. by destruct (less b a). }
  unfold Sample.sort_Sort. apply StronglySorted_merge_sort.
  - intros a b c Hab Hbc.
    destruct (less b a) eqn:E1; [done|]. destruct (less c b) eqn:E2; [done|].
    by rewrite (Hinc c b a E2 E1).
  - intros a b.
    destruct (less b a) eqn:E1; [|by left]. destruct (less a b) eqn:E2; [|by right].
    pose proof (Htrans a b a E2 E1) as H. rewrite Hirr in H. done.
Qed.

(** ** The claims at the sample runtime *)

(** C1 at two records of one stack with a record of another key between. *)
Lemma identical_stacks_merged_witness :
  Stack0 Sample.r1 = Stack0 Sample.r2 /\
  Forall (fun x => stack_key 64 (Stack0 x) <> stack_key 64 (Stack0 Sample.r1))
         ([] ++ [Sample.r4] ++ []) /\
  filter (fun e => Stack0 e = Stack0 Sample.r1)
         (heap_records 64 Sample.map_range Sample.sort_Sort ""
            ([] ++ Sample.r1 :: [Sample.r4] ++ Sample.r2 :: [])) =
  [merged Sample.r1 Sample.r2].
Proof.
  assert (Stack0 Sample.r1 = Stack0 Sample.r2) as H1 by reflexivity.
  assert (Forall (fun x => stack_key 64 (Stack0 x) <> stack_key 64 (Stack0 Sample.r1))
                 ([] ++ [Sample.r4] ++ [])) as H2.
  { repeat constructor. intros H. vm_compute in H. discriminate H. }
  split; [exact H1|]. split; [exact H2|].
  exact (identical_stacks_merged 64 Sample.map_range Sample.sort_Sort
           sample_map_range_perm sample_sort_perm ""
           [] [Sample.r4] [] Sample.r1 Sample.r2 H1 H2).
Defined.

(** C1 as stated fails: [r1] and [r2] are the only records of their stack,
    [r3] has another stack with the same 64-bit key, and the one record
    rendered has the stack of [r3] and the counters of all three. *)
Lemma colliding_stack_takes_merged_entry :
  Stack0 Sample.r1 = Stack0 Sample.r2 /\
  Stack (Sample.r1) = [1; 1041] /\
  Stack (Sample.r3) = [2] /\
  heap_records 64 Sample.map_range Sample.sort_Sort ""
    [Sample.r1; Sample.r2; Sample.r3] =
  [mkRecord 140 55 14 6 (Stack0 Sample.r3)] /\
  filter (fun e => Stack0 e = Stack0 Sample.r1)
         (heap_records 64 Sample.map_range Sample.sort_Sort ""
            [Sample.r1; Sample.r2; Sample.r3]) = [].
Proof. by vm_compute. Qed.

(** C3 at three records, two of them of one stack. *)
Lemma records_sorted_by_metric_witness :
  non_increasing InUseBytes
    (heap_records 64 Sample.map_range Sample.sort_Sort ""
       [Sample.r1; Sample.r4; Sample.r2]) /\
  non_increasing AllocBytes
    (heap_records 64 Sample.map_range Sample.sort_Sort "allocbytes"
       [Sample.r1; Sample.r4; Sample.r2]).
Proof.
  pose proof (records_sorted_by_metric 64 Sample.map_range Sample.sort_Sort
                sample_sort_sorted [Sample.r1; Sample.r4; Sample.r2]) as H.
  split; [exact (proj1 (proj2 (proj2 H)))|exact (proj1 (proj2 (proj2 (proj2 H))))].
Defined.

(** C7 on amd64, at the second frame of a stack, 10 bytes into its
    function. *)
Lemma lookup_address_adjustment_witness :
  Sample.FuncForPC 210 = Some Sample.mallocgc /\
  exists later,
    lookups (snd (pass 64 "amd64" Sample.FuncForPC false ([410] ++ 210 :: []))) =
    lookups (snd (pass 64 "amd64" Sample.FuncForPC false [410])) ++ 209 :: later.
Proof.
  split; [reflexivity|].
  exact (proj1 (lookup_address_adjustment 64 "amd64" Sample.FuncForPC false
                  [410] 210 Sample.mallocgc [] eq_refl)).
Defined.

(** C7 as stated fails: the second frame of the stack is the entry of its
    function; it resolves, is not the innermost frame and does not follow
    the panic entry, and it is looked up at its own address, on amd64 as on
    arm. *)
Lemma entry_address_looked_up_unadjusted :
  Sample.FuncForPC 400 = Some Sample.alloc /\
  Entry Sample.alloc = 400 /\
  follows_panic Sample.FuncForPC [410] = false /\
  lookups (snd (pass 64 "amd64" Sample.FuncForPC false [410; 400])) = [410; 400] /\
  lookups (snd (pass 32 "arm" Sample.FuncForPC false [410; 400])) = [410; 400].
Proof. by vm_compute. Qed.

(** C8 at a stack of [runtime.mallocgc] and [runtime.goexit]. *)
Lemma runtime_only_stack_second_pass_witness :
  (2 <= 2)%nat /\
  writes (snd (pass 64 "amd64" Sample.FuncForPC false [205; 150])) = [] /\
  printStackRecord 64 "amd64" Sample.FuncForPC 2 [205; 150] false =
    Some (snd (pass 64 "amd64" Sample.FuncForPC false [205; 150]) ++
          snd (pass 64 "amd64" Sample.FuncForPC true [205; 150]) ++ [EvWrite nl]).
Proof.
  assert (2 <= 2)%nat as H1 by lia.
  assert (writes (snd (pass 64 "amd64" Sample.FuncForPC false [205; 150])) = [])
    as H2 by reflexivity.
  split; [exact H1|]. split; [exact H2|].
  exact (proj1 (proj2 (runtime_only_stack_second_pass 64 "amd64" Sample.FuncForPC
                         [205; 150] 2 H1 H2))).
Defined.

(** C8 as stated fails: the one frame of the stack is [runtime.goexit], a
    function of the runtime; the suppressing pass writes no frame line, and
    all that [printStackRecord] writes is the closing empty line. *)
Lemma goexit_only_stack_renders_empty :
  Sample.FuncForPC 150 = Some Sample.goexit /\
  String.prefix "runtime." (Name Sample.goexit) = true /\
  writes (snd (pass 64 "amd64" Sample.FuncForPC false [150])) = [] /\
  option_map writes (printStackRecord 64 "amd64" Sample.FuncForPC 2 [150] false) =
    Some [nl].
Proof. by vm_compute. Qed.



(** ** Further facts on [formatSize] *)

Lemma formatSize_below_1000_all :
  forallb (fun n => String.eqb (formatSize (Z.of_nat n))
                               (Fmt.verb_d (Z.of_nat n) +:+ ".00B"))
          (seq 0 (Z.to_nat 1000)) = true.
Proof. by vm_compute. Qed.

(** X16. A size from 0 to 999 is rendered in bytes, as the number itself
    with two zero decimals and the unit [B]. *)
Theorem formatSize_bytes (size : Z) :
  0 <= size < 1000 ->
  formatSize size = Fmt.verb_d size +:+ ".00B".
Proof.
  intros H. pose proof formatSize_below_1000_all as Hall.
  rewrite forallb_forall in Hall. specialize (Hall (Z.to_nat size)).
  rewrite Z2Nat.id in Hall by lia.
  apply String.eqb_eq, Hall, in_seq. lia.
Qed.

Lemma formatSize_bytes_witness :
  0 <= 512 < 1000 /\ formatSize 512 = "512.00B".
Proof. split; [lia|]. apply (formatSize_bytes 512). lia. Defined.

Lemma formatSize_multiples_all :
  forallb (fun k =>
    forallb (fun n =>
      String.eqb (formatSize (Z.of_nat n * 1024 ^ Z.of_nat k))
                 (Fmt.verb_d (Z.of_nat n) +:+ ".00" +:+ nth k units ""))
      (seq 1 (Z.to_nat 999)))
    (seq 0 5) = true.
Proof. by vm_compute. Qed.

(** X17. A whole number [n] of units, from 1 to 999 bytes, kilobytes,
    megabytes, gigabytes or terabytes (unit [k] of the table, of 1024^k
    bytes), is rendered as [n] with two zero decimals and that unit. *)
Theorem formatSize_whole_units (n : Z) (k : nat) :
  1 <= n < 1000 ->
  (k < 5)%nat ->
  formatSize (n * 1024 ^ Z.of_nat k) = Fmt.verb_d n +:+ ".00" +:+ nth k units "".
Proof.
  intros Hn Hk. pose proof formatSize_multiples_all as Hall.
  rewrite forallb_forall in Hall. specialize (Hall k).
  rewrite forallb_forall in Hall. specialize (Hall ltac:(apply in_seq; lia) (Z.to_nat n)).
  rewrite Z2Nat.id in Hall by lia.
  apply String.eqb_eq, Hall, in_seq. lia.
Qed.

Lemma formatSize_whole_units_witness :
  1 <= 3 < 1000 /\ (2 < 5)%nat /\ formatSize (3 * 1024 ^ Z.of_nat 2) = "3.00MB".
Proof.
  split; [lia|]. split; [lia|]. apply (formatSize_whole_units 3 2); lia.
Defined.

Lemma formatSize_pebibytes_all :
  forallb (fun n => String.eqb (formatSize (Z.of_nat n * 1024 ^ 5))
                               (Fmt.verb_d (Z.of_nat n) +:+ "TB"))
          (seq 1 (Z.to_nat 1023)) = true.
Proof. by vm_compute. Qed.

(** X18. Past the last unit the value is divided by 1024 once more and
    still labelled [TB]: a size of [n] times 1024^5 bytes, for [n] from 1
    to 1023, is rendered as [n] without decimals and the unit [TB]. *)
Theorem formatSize_past_last_unit (n : Z) :
  1 <= n <= 1023 ->
  formatSize (n * 1024 ^ 5) = Fmt.verb_d n +:+ "TB".
Proof.
  intros H. pose proof formatSize_pebibytes_all as Hall.
  rewrite forallb_forall in Hall. specialize (Hall (Z.to_nat n)).
  rewrite Z2Nat.id in Hall by lia.
  apply String.eqb_eq, Hall, in_seq. lia.
Qed.

Lemma formatSize_past_last_unit_witness :
  1 <= 2 <= 1023 /\ formatSize (2 * 1024 ^ 5) = "2TB".
Proof. split; [lia|]. apply (formatSize_past_last_unit 2). lia. Defined.

Lemma shr_1_nonneg mrs : 0 <= shr_m mrs -> 0 <= shr_m (shr_1 mrs).
Proof.
  destruct mrs as [m r s]. cbn [shr_m]. intros H.
  destruct m as [|[p|p|]|p]; cbn; lia.
Qed.

Lemma iter_pos_shr_1_nonneg (n : positive) mrs :
  0 <= shr_m mrs -> 0 <= shr_m (SpecFloat.iter_pos shr_1 n mrs).
Proof.
  revert mrs. induction n as [n IH|n IH|]; intros mrs H; cbn [SpecFloat.iter_pos].
  - apply IH, IH, shr_1_nonneg, H.
  - apply IH, IH, H.
  - apply shr_1_nonneg, H.
Qed.

Lemma shr_fexp_nonneg m e l :
  0 <= m -> 0 <= shr_m (fst (shr_fexp Float64.prec Float64.emax m e l)).
Proof.
  intros H. unfold shr_fexp, shr.
  assert (0 <= shr_m (shr_record_of_loc m l)) as H0
    by (by destruct l as [|[]]).
  destruct (_ - e); cbn [fst]; [done| |done].
  by apply iter_pos_shr_1_nonneg.
Qed.

Lemma round_nearest_even_nonneg m l : 0 <= m -> 0 <= round_nearest_even m l.
Proof.
  intros H. destruct l as [|[]]; cbn; [done| |done|lia].
  destruct (Z.even m); lia.
Qed.

Lemma binary_round_aux_negative m e l :
  0 <= m ->
  negative_float (binary_round_aux Float64.prec Float64.emax true m e l).
Proof.
  intros H. unfold binary_round_aux.
  pose proof (shr_fexp_nonneg m e l H) as H1.
  destruct (shr_fexp _ _ m e l) as [mrs1 e1]. cbn [fst] in H1.
  pose proof (shr_fexp_nonneg _ e1 loc_Exact
                (round_nearest_even_nonneg _ (loc_of_shr_record mrs1) H1)) as H2.
  destruct (shr_fexp _ _ (round_nearest_even _ _) e1 loc_Exact) as [mrs2 e2].
  cbn [fst] in H2.
  destruct (shr_m mrs2) as [|p|p]; [done| |lia].
  by destruct (_ <=? _).
Qed.

Lemma of_int_negative size : size < 0 -> negative_float (Float64.of_int size).
Proof.
  intros H. destruct size as [|p|p]; [lia..|].
  unfold Float64.of_int, binary_normalize, binary_round.
  destruct (shl_align _ _ _) as [mz ez].
  apply binary_round_aux_negative. lia.
Qed.

Lemma negative_below_1000 x :
  negative_float x -> Float64.ltb x (Float64.of_int 1000) = true.
Proof. by destruct x as [[]|[]| |[] m e]. Qed.

(** X19. A negative size (the in-use figure of a record that has freed
    more than it has allocated) is never scaled: whatever its magnitude it
    is rendered with two decimals and the unit [B]. *)
Theorem formatSize_negative (size : Z) :
  size < 0 ->
  formatSize size = Fmt.verb_f 2 (Float64.of_int size) +:+ "B".
Proof.
  intros H. unfold formatSize, units. cbn [formatSize_loop].
  by rewrite (negative_below_1000 _ (of_int_negative size H)).
Qed.

Lemma formatSize_negative_witness :
  -5242880 < 0 /\ formatSize (-5242880) = "-5242880.00B".
Proof. split; [lia|]. apply (formatSize_negative (-5242880)). lia. Defined.

(** ** Further facts on the pause history *)

Lemma newest_slot_bound NumGC : (newest_slot NumGC <= 255)%nat.
Proof.
  unfold newest_slot.
  pose proof (Z.mod_pos_bound (uwrap 32 (NumGC + 255)) 256 ltac:(lia)). lia.
Qed.

(** X20. Whatever the collection count and the buffer, the history that
    [Heap] prints holds the slots 1 to 255 of the buffer, each once, and
    never slot 0: 255 pauses. It starts with the newest slot, unless the
    newest slot is slot 0, when it starts with slot 255. *)
Theorem pause_history_slots (NumGC : Z) (PauseNs : list Z) :
  let emitted := pauseNs (pause_history NumGC PauseNs) in
  let pause := fun i => int64 (nth i PauseNs 0) in
  emitted ≡ₚ map pause (seq 1 255) /\
  length emitted = 255%nat /\
  head emitted =
    Some (pause (if (newest_slot NumGC =? 0)%nat then 255%nat else newest_slot NumGC)).
Proof.
  cbv zeta. pose proof (newest_slot_bound NumGC) as Hk.
  assert (pauseNs (pause_history NumGC PauseNs) =
          map (fun i => int64 (nth i PauseNs 0))
              (rev (seq 1 (newest_slot NumGC)) ++
               rev (seq (S (newest_slot NumGC)) (255 - newest_slot NumGC)))) as ->.
  { unfold pause_history, newest_slot. cbv zeta.
    rewrite !countdown_pauseNs. cbn [pauseNs app]. by rewrite map_app. }
  set (k := newest_slot NumGC) in *.
  assert (rev (seq 1 k) ++ rev (seq (S k) (255 - k)) ≡ₚ seq 1 255) as Hperm.
  { assert (seq 1 255 = seq 1 k ++ seq (S k) (255 - k)) as ->.
    { change (S k) with (1 + k)%nat. rewrite <- (seq_app k (255 - k) 1).
      f_equal. lia. }
    by rewrite <- !Permutation_rev. }
  split; [by rewrite Hperm|]. split.
  - by rewrite length_map, Hperm, length_seq.
  - destruct k as [|k]; cbn [Nat.eqb].
    + done.
    + rewrite seq_S, rev_app_distr. done.
Qed.

Lemma pause_body_longest PauseNs i acc :
  longest_of acc -> longest_of (pause_body PauseNs i acc).
Proof.
  intros [Hle Hin]. unfold longest_of, pause_body. cbv zeta. cbn [pauseNs pauseNsLongest].
  set (d := int64 (nth i PauseNs 0)).
  destruct (Z.gtb_spec d (pauseNsLongest acc)) as [Hgt|Hgt]; split.
  - apply Forall_app. split; [|by constructor].
    eapply Forall_impl; [exact Hle|]. cbn. lia.
  - right. apply elem_of_app. right. by constructor.
  - apply Forall_app. split; [done|]. constructor; [lia|constructor].
  - destruct Hin as [?|?]; [by left|right]. apply elem_of_app. by left.
Qed.

Lemma countdown_longest PauseNs lo n acc :
  longest_of acc -> longest_of (countdown (pause_body PauseNs) lo n acc).
Proof.
  revert acc. induction n as [|n IH]; intros acc H; cbn [countdown]; [done|].
  by apply IH, pause_body_longest.
Qed.

(** X21. The longest pause that [Heap] prints is no shorter than any pause
    of the printed history, and it is one of them or zero; it is never
    negative. *)
Theorem pause_longest_is_maximum (NumGC : Z) (PauseNs : list Z) :
  let result := pause_history NumGC PauseNs in
  Forall (fun d => d <= pauseNsLongest result) (pauseNs result) /\
  (pauseNsLongest result = 0 \/ pauseNsLongest result ∈ pauseNs result) /\
  0 <= pauseNsLongest result.
Proof.
  cbv zeta.
  assert (longest_of (pause_history NumGC PauseNs)) as [Hle Hin].
  { unfold pause_history. cbv zeta. apply countdown_longest, countdown_longest.
    split; [constructor|by left]. }
  split; [done|]. split; [done|].
  assert (forall n lo acc, 0 <= pauseNsLongest acc ->
            0 <= pauseNsLongest (countdown (pause_body PauseNs) lo n acc)) as Hpos.
  { induction n as [|n IH]; intros lo acc H; cbn [countdown]; [done|].
    apply IH. unfold pause_body. cbv zeta. cbn [pauseNsLongest].
    destruct (Z.gtb_spec (int64 (nth (lo + S n) PauseNs 0)) (pauseNsLongest acc)); lia. }
  unfold pause_history. cbv zeta. apply Hpos, Hpos. done.
Qed.

(** ** Further facts on the comparators and the key *)

(** X22. Each of the four [Less] methods, and so the comparator of every
    sort value, is the strict weak ordering that [sort.Sort] requires:
    irreflexive, transitive, with a transitive incomparability; it is
    [true] exactly when the first record has the larger metric. *)
Theorem comparators_meet_sort_contract (sortKey : string) :
  StrictWeak (lessFor sortKey) /\
  StrictWeak byInUseBytes_Less /\ StrictWeak byAllocBytes_Less /\
  StrictWeak byAllocObjects_Less /\ StrictWeak byInUseObjects_Less /\
  (forall a b, byInUseBytes_Less a b = true <-> InUseBytes b < InUseBytes a) /\
  (forall a b, byAllocBytes_Less a b = true <-> AllocBytes b < AllocBytes a) /\
  (forall a b, byAllocObjects_Less a b = true <-> AllocObjects b < AllocObjects a) /\
  (forall a b, byInUseObjects_Less a b = true <-> InUseObjects b < InUseObjects a).
Proof.
  split; [apply lessFor_strict_weak|].
  repeat split; try apply metric_order_strict_weak;
    unfold byInUseBytes_Less, byAllocBytes_Less, byAllocObjects_Less, byInUseObjects_Less;
    rewrite Z.gtb_ltb, Z.ltb_lt; done.
Qed.

(** X23. On a platform whose [uintptr] has [bits] bits the aggregation key
    is a value of that width, whatever the slots hold; and the key of a
    record without any stack address (all slots zero) is zero. *)
Theorem stack_key_range (bits : Z) (slots : list Z) :
  0 <= bits ->
  0 <= stack_key bits slots < 2 ^ bits /\
  stack_key bits (replicate (length slots) 0) = 0.
Proof.
  intros Hb. split.
  - rewrite stack_key_spec. unfold spec_key. cbv zeta.
    set (h := (_ + _) mod 2 ^ bits).
    assert (0 < 2 ^ bits) as Hpow by (by apply Z.pow_pos_nonneg).
    assert (0 <= h < 2 ^ bits) as Hh by (by apply Z.mod_pos_bound).
    apply lxor_bound; [done|].
    split; [apply Z.div_pos; lia|].
    apply Z.le_lt_trans with h; [|lia].
    apply Z.div_le_upper_bound; nia.
  - rewrite stack_key_spec. unfold spec_key. cbv zeta.
    assert (spec_fold bits 0 (replicate (length slots) 0) = 0) as ->.
    { induction (length slots) as [|n IH]; [done|].
      cbn [replicate spec_fold]. cbv zeta.
      rewrite Z.add_0_l, Zmod_0_l, ?Z.mul_0_l, ?Z.add_0_l, ?Zmod_0_l, ?Zdiv_0_l.
      exact IH. }
    by rewrite ?Z.mul_0_l, ?Z.add_0_l, ?Zmod_0_l, ?Zdiv_0_l.
Qed.

Lemma stack_key_range_witness :
  0 <= 32 /\
  0 <= stack_key 32 [4198400; 4202496] < 2 ^ 32 /\
  stack_key 32 (replicate (length [4198400; 4202496]) 0) = 0.
Proof. split; [lia|]. apply (stack_key_range 32 [4198400; 4202496]). lia. Defined.

(** ** The default sort, over the orders the runtime is free to choose *)

Lemma NoDup_fmap_eq {A B} (f : A -> B) (l : list A) (x y : A) :
  NoDup (f <$> l) -> x ∈ l -> y ∈ l -> f x = f y -> x = y.
Proof.
  induction l as [|a l IH]; intros Hnd Hx Hy Hf; [by apply elem_of_nil in Hx|].
  rewrite fmap_cons in Hnd. apply NoDup_cons in Hnd as [Ha Hnd].
  apply elem_of_cons in Hx as [->|Hx]; apply elem_of_cons in Hy as [->|Hy].
  - done.
  - exfalso. apply Ha. rewrite Hf. by apply list_elem_of_fmap_2.
  - exfalso. apply Ha. rewrite <- Hf. by apply list_elem_of_fmap_2.
  - by apply IH.
Qed.

(** X8. A sort value that is none of [allocbytes], [allocobjects] and
    [inuseobjects] selects the comparator of the absent value, in-use
    bytes.  Go fixes neither the order of [range] over a map nor the order
    in which [sort.Sort] leaves records that compare equal, so two requests
    are modelled with a [range] and a sort of their own, each under the
    contracts above.  The records of the request with such a value are then
    a permutation of those of the request without a value, both lists are
    in non-increasing order of in-use bytes, and the header lines agree;
    when no two merged records have the same in-use bytes, the records come
    in the same order and the text written is the same. *)
Theorem unrecognized_sort_is_default
    (ptrBits : Z) (GOARCH : string) (FuncForPC : Z -> option Func)
    (MemProfileRate : Z)
    (range1 range2 : gmap Z MemProfileRecord -> list (Z * MemProfileRecord))
    (sort1 sort2 : (MemProfileRecord -> MemProfileRecord -> bool) ->
                   list MemProfileRecord -> list MemProfileRecord)
    (depth : nat) (sortKey : string) (p : list MemProfileRecord) :
  (forall m, range1 m ≡ₚ map_to_list m) ->
  (forall m, range2 m ≡ₚ map_to_list m) ->
  (forall less l, sort1 less l ≡ₚ l) ->
  (forall less l, sort2 less l ≡ₚ l) ->
  (forall less l, StrictWeak less ->
     StronglySorted (fun a b => less b a = false) (sort1 less l)) ->
  (forall less l, StrictWeak less ->
     StronglySorted (fun a b => less b a = false) (sort2 less l)) ->
  sortKey <> "allocbytes" -> sortKey <> "allocobjects" -> sortKey <> "inuseobjects" ->
  let given := heap_records ptrBits range1 sort1 sortKey p in
  let absent := heap_records ptrBits range2 sort2 "" p in
  lessFor sortKey = byInUseBytes_Less /\ lessFor "" = byInUseBytes_Less /\
  given ≡ₚ absent /\
  non_increasing InUseBytes given /\ non_increasing InUseBytes absent /\
  header_line ptrBits MemProfileRate (heap_total given) =
    header_line ptrBits MemProfileRate (heap_total absent) /\
  header_comment ptrBits MemProfileRate (heap_total given) =
    header_comment ptrBits MemProfileRate (heap_total absent) /\
  (NoDup (InUseBytes <$> stored_records (merge_records ptrBits p)) ->
   given = absent /\
   Heap ptrBits GOARCH FuncForPC MemProfileRate range1 sort1 depth sortKey p =
   Heap ptrBits GOARCH FuncForPC MemProfileRate range2 sort2 depth "" p).
Proof.
  intros Hr1 Hr2 Hp1 Hp2 Hs1 Hs2 H1 H2 H3 given absent.
  pose proof (lessFor_default sortKey H1 H2 H3) as Hless.
  assert (lessFor "" = byInUseBytes_Less) as Hless0 by reflexivity.
  pose proof (heap_records_stored ptrBits range1 sort1 Hr1 Hp1 sortKey p) as Hg.
  pose proof (heap_records_stored ptrBits range2 sort2 Hr2 Hp2 "" p) as Ha.
  fold given in Hg. fold absent in Ha.
  assert (given ≡ₚ absent) as Hperm by (by rewrite Hg, Ha).
  assert (heap_total given = heap_total absent) as Ht.
  { unfold given, absent.
    by rewrite (heap_records_total ptrBits range1 sort1 Hr1 Hp1),
               (heap_records_total ptrBits range2 sort2 Hr2 Hp2). }
  split; [exact Hless|]. split; [exact Hless0|]. split; [exact Hperm|].
  split; [by apply (heap_records_order ptrBits range1 sort1 Hs1)|].
  split; [by apply (heap_records_order ptrBits range2 sort2 Hs2)|].
  split; [by rewrite Ht|]. split; [by rewrite Ht|].
  intros Hnd.
  assert (given = absent) as Heq.
  { apply (StronglySorted_unique_strong
             (fun a b => byInUseBytes_Less b a = false)); [| | |exact Hperm].
    - intros x1 x2 Hx1 Hx2 H12 H21.
      apply (NoDup_fmap_eq InUseBytes _ _ _ Hnd).
      + by rewrite <- Hg.
      + by rewrite <- Ha.
      + unfold byInUseBytes_Less in H12, H21.
        rewrite Z.gtb_ltb, Z.ltb_ge in H12, H21. lia.
    - unfold given, heap_records. rewrite Hless.
      apply Hs1. rewrite <- Hless. apply lessFor_strict_weak.
    - unfold absent, heap_records. rewrite Hless0.
      apply Hs2. rewrite <- Hless0. apply lessFor_strict_weak. }
  split; [exact Heq|]. unfold Heap. cbv zeta. fold given absent. by rewrite Heq.
Qed.


(** ** The further facts at the sample runtime *)

Lemma totals_kept_by_aggregation_witness :
  heap_total (heap_records 64 Sample.map_range Sample.sort_Sort ""
                [Sample.r1; Sample.r2; Sample.r3; Sample.r4]) =
  heap_total [Sample.r1; Sample.r2; Sample.r3; Sample.r4].
Proof.
  exact (proj1 (totals_kept_by_aggregation 64 0 Sample.map_range Sample.sort_Sort
                  sample_map_range_perm sample_sort_perm ""
                  [Sample.r1; Sample.r2; Sample.r3; Sample.r4])).
Defined.

Lemma sort_value_only_reorders_witness :
  heap_records 64 Sample.map_range Sample.sort_Sort "allocobjects"
    [Sample.r1; Sample.r4; Sample.r2] ≡ₚ
  heap_records 64 Sample.map_range Sample.sort_Sort "inuse"
    [Sample.r1; Sample.r4; Sample.r2].
Proof.
  exact (proj1 (sort_value_only_reorders 64 Sample.map_range Sample.sort_Sort
                  sample_map_range_perm sample_sort_perm "allocobjects" "inuse"
                  [Sample.r1; Sample.r4; Sample.r2])).
Defined.

Lemma rendered_keys_distinct_witness :
  NoDup (map (key_of 64)
           (heap_records 64 Sample.map_range Sample.sort_Sort ""
              [Sample.r1; Sample.r2; Sample.r3; Sample.r4])) /\
  (length (heap_records 64 Sample.map_range Sample.sort_Sort ""
             [Sample.r1; Sample.r2; Sample.r3; Sample.r4]) <= 4)%nat.
Proof.
  exact (rendered_keys_distinct 64 Sample.map_range Sample.sort_Sort
           sample_map_range_perm sample_sort_perm ""
           [Sample.r1; Sample.r2; Sample.r3; Sample.r4]).
Defined.

Lemma rendered_stacks_are_last_of_key_witness :
  (forall r,
     r ∈ [Sample.r1; Sample.r2; Sample.r3; Sample.r4] ->
     exists e,
       e ∈ heap_records 64 Sample.map_range Sample.sort_Sort ""
             [Sample.r1; Sample.r2; Sample.r3; Sample.r4] /\
       key_of 64 e = key_of 64 r) /\
  (forall e,
     e ∈ heap_records 64 Sample.map_range Sample.sort_Sort ""
           [Sample.r1; Sample.r2; Sample.r3; Sample.r4] ->
     exists l1 r l2,
       [Sample.r1; Sample.r2; Sample.r3; Sample.r4] = l1 ++ r :: l2 /\
       Stack0 e = Stack0 r /\
       Forall (fun x => key_of 64 x <> key_of 64 r) l2).
Proof.
  exact (rendered_stacks_are_last_of_key 64 Sample.map_range Sample.sort_Sort
           sample_map_range_perm sample_sort_perm ""
           [Sample.r1; Sample.r2; Sample.r3; Sample.r4]).
Defined.

Lemma distinct_keys_not_merged_witness :
  NoDup (map (key_of 64) [Sample.r4; Sample.r1]) /\
  heap_records 64 Sample.map_range Sample.sort_Sort "" [Sample.r4; Sample.r1] ≡ₚ
  [Sample.r4; Sample.r1].
Proof.
  assert (NoDup (map (key_of 64) [Sample.r4; Sample.r1])) as H.
  { constructor; [|constructor; [apply not_elem_of_nil|constructor]].
    intros Hin. apply list_elem_of_In in Hin. vm_compute in Hin.
    destruct Hin as [Hin|[]]. discriminate Hin. }
  split; [exact H|].
  exact (distinct_keys_not_merged 64 Sample.map_range Sample.sort_Sort
           sample_map_range_perm sample_sort_perm "" [Sample.r4; Sample.r1] H).
Defined.

Lemma same_key_records_merge_into_one_witness :
  Forall (fun r => key_of 64 r = key_of 64 Sample.r3) [Sample.r1; Sample.r2] /\
  Forall int64_record ([Sample.r1; Sample.r2] ++ [Sample.r3]) /\
  heap_records 64 Sample.map_range Sample.sort_Sort ""
    ([Sample.r1; Sample.r2] ++ [Sample.r3]) =
  [summed ([Sample.r1; Sample.r2] ++ [Sample.r3]) Sample.r3].
Proof.
  assert (Forall (fun r => key_of 64 r = key_of 64 Sample.r3) [Sample.r1; Sample.r2])
    as H1 by (repeat constructor).
  assert (Forall int64_record ([Sample.r1; Sample.r2] ++ [Sample.r3])) as H2.
  { repeat constructor; unfold in_int64; cbn; lia. }
  split; [exact H1|]. split; [exact H2|].
  exact (same_key_records_merge_into_one 64 Sample.map_range Sample.sort_Sort
           sample_map_range_perm sample_sort_perm ""
           [Sample.r1; Sample.r2] Sample.r3 H1 H2).
Defined.

Lemma empty_profile_report_witness :
  Heap 64 "amd64" Sample.FuncForPC 524288 Sample.map_range Sample.sort_Sort 2 "" [] =
  Some ["heap profile: 0: 0 [0: 0]" +:+ rate_suffix 64 524288;
        "# heap profile: 0: 0.00B [0: 0.00B]" +:+ rate_suffix 64 524288 +:+ nl].
Proof.
  exact (proj2 (empty_profile_report 64 "amd64" Sample.FuncForPC 524288
                  Sample.map_range Sample.sort_Sort
                  sample_map_range_perm sample_sort_perm 2 "")).
Defined.

Lemma sample_map_range_reversed_perm (m : gmap Z MemProfileRecord) :
  Sample.map_range_reversed m ≡ₚ map_to_list m.
Proof. apply reverse_Permutation. Qed.

Lemma unrecognized_sort_is_default_witness :
  "bytes" <> "allocbytes" /\ "bytes" <> "allocobjects" /\ "bytes" <> "inuseobjects" /\
  NoDup (InUseBytes <$> stored_records (merge_records 64 [Sample.r1; Sample.r4])) /\
  Heap 64 "amd64" Sample.FuncForPC 524288 Sample.map_range Sample.sort_Sort 2 "bytes"
    [Sample.r1; Sample.r4] =
  Heap 64 "amd64" Sample.FuncForPC 524288 Sample.map_range_reversed Sample.sort_Sort 2 ""
    [Sample.r1; Sample.r4].
Proof.
  assert ("bytes" <> "allocbytes") as H1 by discriminate.
  assert ("bytes" <> "allocobjects") as H2 by discriminate.
  assert ("bytes" <> "inuseobjects") as H3 by discriminate.
  assert (NoDup (InUseBytes <$> stored_records (merge_records 64 [Sample.r1; Sample.r4])))
    as Hnd.
  { vm_compute.
    apply NoDup_cons. split.
    - intros H. apply elem_of_cons in H as [H|H]; [discriminate H|].
      by apply elem_of_nil in H.
    - apply NoDup_cons. split; [apply not_elem_of_nil|apply NoDup_nil_2]. }
  split; [exact H1|]. split; [exact H2|]. split; [exact H3|]. split; [exact Hnd|].
  exact (proj2 (proj2 (proj2 (proj2 (proj2 (proj2 (proj2 (proj2
    (unrecognized_sort_is_default 64 "amd64" Sample.FuncForPC 524288
       Sample.map_range Sample.map_range_reversed Sample.sort_Sort Sample.sort_Sort
       2 "bytes" [Sample.r1; Sample.r4]
       sample_map_range_perm sample_map_range_reversed_perm
       sample_sort_perm sample_sort_perm
       sample_sort_sorted sample_sort_sorted H1 H2 H3))))))) Hnd)).
Defined.

Lemma shown_stack_single_pass_witness :
  (1 <= 1)%nat /\
  printStackRecord 64 "amd64" Sample.FuncForPC 1 [205; 410] false =
  Some (snd (pass 64 "amd64" Sample.FuncForPC false [205; 410]) ++ [EvWrite nl]).
Proof.
  split; [lia|].
  apply (shown_stack_single_pass 64 "amd64" Sample.FuncForPC 1 [205; 410] false);
    [lia|]. right. discriminate.
Defined.

Lemma unresolved_address_always_written_witness :
  (1 <= 1)%nat /\ 7 ∈ [205; 7; 210] /\ Sample.FuncForPC 7 = None /\
  hex_line 7 ∈ writes (snd (pass 64 "amd64" Sample.FuncForPC false [205; 7; 210])).
Proof.
  assert (7 ∈ [205; 7; 210]) as H by (right; left).
  split; [lia|]. split; [exact H|]. split; [reflexivity|].
  apply (unresolved_address_always_written 64 "amd64" Sample.FuncForPC 1
           [205; 7; 210] false 7); [lia|exact H|reflexivity].
Defined.

Lemma user_frame_always_written_witness :
  Sample.FuncForPC 410 = Some Sample.alloc /\
  String.prefix "runtime." (Name Sample.alloc) = false /\
  writes (snd (pass 64 "amd64" Sample.FuncForPC false ([205] ++ 410 :: [150]))) =
    writes (snd (pass 64 "amd64" Sample.FuncForPC false [205])) ++
    [frame_line 64 410 Sample.alloc "main.go" 409] ++
    writes (snd (frames 64 "amd64" Sample.FuncForPC (mkState true false) 2 [150])).
Proof.
  split; [reflexivity|]. split; [reflexivity|].
  exact (user_frame_always_written 64 "amd64" Sample.FuncForPC false
           [205] 410 Sample.alloc [150] eq_refl eq_refl).
Defined.

Lemma leading_runtime_frames_hidden_witness :
  Forall (internal_frame Sample.FuncForPC) [205; 305] /\
  writes (snd (pass 64 "amd64" Sample.FuncForPC false ([205; 305] ++ [410]))) =
    writes (snd (frames 64 "amd64" Sample.FuncForPC (mkState false true) 2 [410])) /\
  length (lookups (snd (pass 64 "amd64" Sample.FuncForPC false [205; 305]))) = 2%nat.
Proof.
  assert (Forall (internal_frame Sample.FuncForPC) [205; 305]) as H.
  { repeat constructor; eexists; split; reflexivity. }
  split; [exact H|].
  exact (proj2 (leading_runtime_frames_hidden 64 "amd64" Sample.FuncForPC
                  [205; 305] [410] H)).
Defined.

Lemma visible_head_makes_flag_irrelevant_witness :
  ~ internal_frame Sample.FuncForPC 410 /\
  printStackRecord 64 "amd64" Sample.FuncForPC 2 (410 :: [205; 150]) false =
  printStackRecord 64 "amd64" Sample.FuncForPC 2 (410 :: [205; 150]) true.
Proof.
  assert (~ internal_frame Sample.FuncForPC 410) as H.
  { intros (f & Hf & Hp). injection Hf as <-. discriminate Hp. }
  split; [exact H|].
  exact (proj2 (visible_head_makes_flag_irrelevant 64 "amd64" Sample.FuncForPC 2
                  410 [205; 150] H)).
Defined.
